(** * The Pub/Sub subscriber of prow: event-to-job resolution and dispatch

    A shallow embedding of [prow/pubsub/subscriber/subscriber.go]: the
    event payload codec, the three job-class resolvers, and the dispatcher
    ([handleMessage], [handleProwJob]), followed by the properties of the
    specification that concern them.

    Conventions.
    - A Go [map[string]string] that may be [nil] is an
      [option (gmap string string)]; reading a [nil] map behaves as reading
      the empty one.
    - The [Labels] map of a catalog entry is a Go map, that is a reference:
      it is a location into a heap of maps held by the [World], so that an
      update through one alias is seen by every alias.
    - Calls to the external collaborators (reporter, job client) and the
      two stages of handling (decode, resolve) are recorded in a trace.
    - Functions of the Go standard library and of [pjutil] that the file
      calls but does not define are operations of the classes [GoRuntime]
      and [Pjutil]. *)

From Stdlib Require Import ZArith Strings.String Strings.Ascii Strings.Byte.
From stdpp Require Import gmap strings list fin_maps sorting pretty.

Set Default Proof Using "Type".
Set Warnings "-register-all".

(** ** Errors and results *)

Definition error := string.

Inductive result (A : Type) : Type :=
| Ok (a : A)
| Err (e : error).
Arguments Ok {A} a.
Arguments Err {A} e.

(** ** Data model *)

(** A Go map value: [None] is the [nil] map. *)
Abbreviation gomap := (option (gmap string string)).

Definition contents (m : gomap) : gmap string string := default ∅ m.

(** [len(m) == 0], the test behind the [omitempty] tag on a map. *)
Definition gomap_empty (m : gomap) : bool := bool_decide (contents m = ∅).

(** Modelled from the spec: [v1.Pull] and [v1.Refs] are declared outside
    this file; the fields are those of the wire format
    (org, repo, base_ref, base_sha, pulls[{number, sha}]). *)
Record Pull := mkPull { pull_Number : Z; pull_SHA : string }.

Record Refs := mkRefs {
  refs_Org : string;
  refs_Repo : string;
  refs_BaseRef : string;
  refs_BaseSHA : string;
  refs_Pulls : list Pull
}.

(** [ProwJobEvent]: the minimum information required to start a ProwJob. *)
Record ProwJobEvent := mkEvent {
  pe_Name : string;
  pe_Refs : option Refs;
  pe_Envs : gomap;
  pe_Labels : gomap;
  pe_Annotations : gomap
}.

(** The zero value, [var pe ProwJobEvent]. *)
Definition zeroEvent : ProwJobEvent := mkEvent "" None None None None.

Record EnvVar := mkEnvVar { env_Name : string; env_Value : string }.

Record Container := mkContainer {
  c_Name : string;
  c_Image : string;
  c_Env : list EnvVar
}.

Record PodSpec := mkPodSpec { Containers : list Container }.

Record ProwJobSpec := mkSpec {
  spec_Job : string;
  spec_Cluster : string;
  spec_Refs : option Refs;
  spec_PodSpec : option PodSpec
}.

(** [prowapi.ProwJobSpec{}] *)
Definition zeroSpec : ProwJobSpec := mkSpec "" "" None None.

Inductive ProwJobState := NoState | TriggeredState | ErrorState.

Record ProwJobStatus := mkStatus {
  st_State : ProwJobState;
  st_Description : string
}.

Record ProwJob := mkProwJob {
  pj_Spec : ProwJobSpec;
  pj_Labels : gomap;
  pj_Annotations : gomap;
  pj_Status : ProwJobStatus
}.

(** Modelled from the spec: [pjutil.NewProwJob] is declared outside this
    file; the submitted job is built from spec + labels + annotations, its
    status not yet set. *)
Definition NewProwJob (spec : ProwJobSpec) (labels annotations : gomap) : ProwJob :=
  mkProwJob spec labels annotations (mkStatus NoState "").

(** ** The job catalog *)

(** Location of a label map in the heap of maps. *)
Definition loc := nat.

(** Modelled from the spec: [config.JobBase] is declared outside this file;
    a catalog entry has a name, labels, a cluster and a pod template.
    [job_Labels] is [None] for a [nil] map and otherwise the location of
    the entry's map. *)
Record JobBase := mkJobBase {
  job_Name : string;
  job_Labels : option loc;
  job_Cluster : string;
  job_Spec : option PodSpec
}.

Record Periodic := mkPeriodic { per_JobBase : JobBase }.

(** Modelled from the spec: the branch-matching predicate of a presubmit
    or postsubmit entry, [job.CouldRun(branch)]. *)
Record Presubmit := mkPresubmit {
  pre_JobBase : JobBase;
  pre_CouldRun : string -> bool
}.

Record Postsubmit := mkPostsubmit {
  post_JobBase : JobBase;
  post_CouldRun : string -> bool
}.

(** [prowCfgClient] *)
Record prowCfgClient := mkCfg {
  AllPeriodics : list Periodic;
  GetPresubmitsStatic : string -> list Presubmit;
  GetPostsubmitsStatic : string -> list Postsubmit
}.

(** [config.InRepoConfigCache]. The SHA getters of the source are closures
    that return a fixed SHA and no error; they are passed as the SHAs. *)
Record InRepoConfigCache := mkCache {
  GetPresubmits : string -> string -> list string -> result (list Presubmit);
  GetPostsubmits : string -> string -> result (list Postsubmit)
}.

(** ** JSON values *)

Inductive json :=
| JNull
| JBool (b : bool)
| JNumber (z : Z)
| JString (s : string)
| JArray (l : list json)
| JObject (l : list (string * json)).

(** ** Operations of the Go standard library and of pjutil *)

Class GoRuntime := {
  (** [strconv.Quote], the [%q] verb *)
  Quote : string -> string;
  (** [strings.TrimSpace] *)
  TrimSpace : string -> string;
  (** the text of a JSON value, as [json.Marshal] writes it *)
  json_render : json -> list byte;
  (** the JSON value of a text, or the syntax error of [json.Unmarshal] *)
  json_parse : list byte -> result json;
  (** the error of [json.Unmarshal] for a value of the wrong type at a field *)
  json_type_error : string -> error;
  (** whether an object key selects the struct field with the given tag *)
  json_key_is : string -> string -> bool;
  (** the JSON value of a [v1.Refs], whose tags are declared outside this
      file, and the decoding of a value into a [*v1.Refs] *)
  Refs_toJSON : Refs -> json;
  Refs_fromJSON : json -> option Refs -> result (option Refs);
  (** the order in which the [n]-th [range] over a map visits its entries *)
  map_range : nat -> gmap string string -> list (string * string)
}.

Class Pjutil := {
  PeriodicSpec : Periodic -> ProwJobSpec;
  PresubmitSpec : Presubmit -> Refs -> ProwJobSpec;
  PostsubmitSpec : Postsubmit -> Refs -> ProwJobSpec
}.

(** ** Event payload codec

    [FromPayload] and [ToMessage] hand the event to [encoding/json]. What
    that package does with a [ProwJobEvent] is fixed by the struct tags of
    the type: the members written for an event are [event_toJSON], and a
    value is decoded into an event member by member, [event_fromJSON].
    The text of a value belongs to the runtime. *)

Definition prowEventType : string := "prow.k8s.io/pubsub.EventType".
Definition periodicProwJobEvent : string := "prow.k8s.io/pubsub.PeriodicProwJobEvent".
Definition presubmitProwJobEvent : string := "prow.k8s.io/pubsub.PresubmitProwJobEvent".
Definition postsubmitProwJobEvent : string := "prow.k8s.io/pubsub.PostsubmitProwJobEvent".

(** [pubsub.Message], as far as the subscriber reads it. *)
Record Message := mkMessage {
  msg_ID : string;
  msg_Data : list byte;
  msg_Attributes : gmap string string
}.

(** Order of the keys of an object written from a map: [json.Marshal]
    sorts them. *)
Definition key_le (a b : string * string) : Prop := String.leb a.1 b.1 = true.

#[global] Instance key_le_dec a b : Decision (key_le a b).
Proof. unfold key_le. apply _. Defined.

Definition map_toJSON (m : gmap string string) : json :=
  JObject (prod_map id JString <$> merge_sort key_le (map_to_list m)).

(** The members that [json.Marshal] writes for a [ProwJobEvent], from its
    struct tags: [name] always; [refs], [envs], [labels], [annotations]
    with [omitempty]. *)
Definition event_toJSON `{GoRuntime} (pe : ProwJobEvent) : json :=
  JObject
    ([("name", JString (pe_Name pe))]
     ++ match pe_Refs pe with
        | None => []
        | Some r => [("refs", Refs_toJSON r)]
        end
     ++ (if gomap_empty (pe_Envs pe) then []
         else [("envs", map_toJSON (contents (pe_Envs pe)))])
     ++ (if gomap_empty (pe_Labels pe) then []
         else [("labels", map_toJSON (contents (pe_Labels pe)))])
     ++ (if gomap_empty (pe_Annotations pe) then []
         else [("annotations", map_toJSON (contents (pe_Annotations pe)))])).

(** Decoding into a [string]: [null] leaves the target as it is. *)
Definition decode_string `{GoRuntime} (field : string) (v : json) (old : string)
  : result string :=
  match v with
  | JString s => Ok s
  | JNull => Ok old
  | _ => Err (json_type_error field)
  end.

(** Decoding the members of an object into a [map[string]string]: each
    member is decoded into a zero string and stored under its key. *)
Fixpoint decode_entries `{GoRuntime} (field : string) (kvs : list (string * json))
    (m : gmap string string) : result (gmap string string) :=
  match kvs with
  | [] => Ok m
  | (k, v) :: rest =>
      match decode_string field v "" with
      | Ok s => decode_entries field rest (<[k := s]> m)
      | Err e => Err e
      end
  end.

(** Decoding into a [map[string]string]: [null] sets it to [nil]; an
    object is added to the map, which is made when it is [nil]. *)
Definition decode_map `{GoRuntime} (field : string) (v : json) (old : gomap)
  : result gomap :=
  match v with
  | JNull => Ok None
  | JObject kvs =>
      match decode_entries field kvs (contents old) with
      | Ok m => Ok (Some m)
      | Err e => Err e
      end
  | _ => Err (json_type_error field)
  end.

(** One member of the object, decoded into the field its key selects;
    a key that selects no field is skipped. *)
Definition decode_member `{GoRuntime} (k : string) (v : json) (pe : ProwJobEvent)
  : result ProwJobEvent :=
  if json_key_is k "name" then
    match decode_string "name" v (pe_Name pe) with
    | Ok s => Ok (mkEvent s (pe_Refs pe) (pe_Envs pe) (pe_Labels pe) (pe_Annotations pe))
    | Err e => Err e
    end
  else if json_key_is k "refs" then
    match Refs_fromJSON v (pe_Refs pe) with
    | Ok r => Ok (mkEvent (pe_Name pe) r (pe_Envs pe) (pe_Labels pe) (pe_Annotations pe))
    | Err e => Err e
    end
  else if json_key_is k "envs" then
    match decode_map "envs" v (pe_Envs pe) with
    | Ok m => Ok (mkEvent (pe_Name pe) (pe_Refs pe) m (pe_Labels pe) (pe_Annotations pe))
    | Err e => Err e
    end
  else if json_key_is k "labels" then
    match decode_map "labels" v (pe_Labels pe) with
    | Ok m => Ok (mkEvent (pe_Name pe) (pe_Refs pe) (pe_Envs pe) m (pe_Annotations pe))
    | Err e => Err e
    end
  else if json_key_is k "annotations" then
    match decode_map "annotations" v (pe_Annotations pe) with
    | Ok m => Ok (mkEvent (pe_Name pe) (pe_Refs pe) (pe_Envs pe) (pe_Labels pe) m)
    | Err e => Err e
    end
  else Ok pe.

Fixpoint decode_members `{GoRuntime} (kvs : list (string * json)) (pe : ProwJobEvent)
  : result ProwJobEvent :=
  match kvs with
  | [] => Ok pe
  | (k, v) :: rest =>
      match decode_member k v pe with
      | Ok pe' => decode_members rest pe'
      | Err e => Err e
      end
  end.

Definition event_fromJSON `{GoRuntime} (v : json) (pe : ProwJobEvent)
  : result ProwJobEvent :=
  match v with
  | JNull => Ok pe
  | JObject kvs => decode_members kvs pe
  | _ => Err (json_type_error "ProwJobEvent")
  end.

(** [json.Marshal(pe)]; it does not fail on a [ProwJobEvent]. *)
Definition json_Marshal `{GoRuntime} (pe : ProwJobEvent) : result (list byte) :=
  Ok (json_render (event_toJSON pe)).

(** [json.Unmarshal(data, pe)] *)
Definition json_Unmarshal `{GoRuntime} (data : list byte) (pe : ProwJobEvent)
  : result ProwJobEvent :=
  match json_parse data with
  | Ok v => event_fromJSON v pe
  | Err e => Err e
  end.

(** [FromPayload] sets the event from the message payload. The result is
    the receiver after the call, or the error. *)
Definition FromPayload `{GoRuntime} (pe : ProwJobEvent) (data : list byte)
  : result ProwJobEvent :=
  match json_Unmarshal data pe with
  | Err err => Err err
  | Ok pe' => Ok pe'
  end.

(** [ToMessage] generates a message from an event. *)
Definition ToMessage `{GoRuntime} (pe : ProwJobEvent) : result Message :=
  match json_Marshal pe with
  | Err err => Err err
  | Ok data =>
      Ok (mkMessage "" data {[ prowEventType := periodicProwJobEvent ]})
  end.

(** ** The world of a subscriber *)

(** [jobHandler] and its three implementations. *)
Inductive jobHandler := periodicJobHandler | presubmitJobHandler | postsubmitJobHandler.

Inductive Event :=
| EvFromPayload (data : list byte)
| EvGetProwJobSpec (jh : jobHandler) (pe : ProwJobEvent)
| EvShouldReport (pj : ProwJob)
| EvReport (pj : ProwJob)
| EvCreate (pj : ProwJob).

(** [Metrics]: two counter vectors, one child per subscription label. *)
Record Metrics := mkMetrics {
  MessageCounter : gmap string nat;
  ErrorCounter : gmap string nat
}.

Record World := mkWorld {
  w_Metrics : Metrics;
  w_heap : gmap loc (gmap string string);
  w_trace : list Event
}.

(** [Subscriber]. [s_Config] is what [s.ConfigAgent.Config()] returns; the
    metrics, which are updated in place, are part of the [World]. *)
Record Subscriber := mkSubscriber {
  s_Config : prowCfgClient;
  s_InRepoConfigCache : option InRepoConfigCache;
  ProwJobClient_Create : ProwJob -> option error;
  Reporter_ShouldReport : ProwJob -> bool;
  Reporter_Report : ProwJob -> option error
}.

(** State passing over the world. *)
Definition M (A : Type) : Type := World -> A * World.

#[global] Instance M_ret : MRet M := λ A a w, (a, w).
#[global] Instance M_bind : MBind M :=
  λ A B f m w, let '(a, w') := m w in f a w'.

Definition emit (ev : Event) : M unit :=
  λ w, (tt, mkWorld (w_Metrics w) (w_heap w) (w_trace w ++ [ev])).

(** [vec.With(labels)]: the child counter of the label, made at zero when
    the vector has none yet. *)
Definition With (subscription : string) (vec : gmap string nat) : gmap string nat :=
  match vec !! subscription with
  | Some _ => vec
  | None => <[subscription := 0]> vec
  end.

(** [counter.Inc()] on the child of the label. *)
Definition Inc (subscription : string) (vec : gmap string nat) : gmap string nat :=
  alter S subscription vec.

(** The value a counter vector shows for a label. *)
Definition counter_value (vec : gmap string nat) (subscription : string) : nat :=
  default 0 (vec !! subscription).

(** [s.Metrics.MessageCounter.With(...).Inc()] *)
Definition MessageCounter_With_Inc (subscription : string) : M unit :=
  λ w, (tt, mkWorld
              (mkMetrics (Inc subscription (With subscription (MessageCounter (w_Metrics w))))
                         (ErrorCounter (w_Metrics w)))
              (w_heap w) (w_trace w)).

(** [s.Metrics.ErrorCounter.With(...)] *)
Definition ErrorCounter_With (subscription : string) : M unit :=
  λ w, (tt, mkWorld
              (mkMetrics (MessageCounter (w_Metrics w))
                         (With subscription (ErrorCounter (w_Metrics w))))
              (w_heap w) (w_trace w)).

(** ** Job-class resolvers *)

Definition is_empty (s : string) : bool := Nat.eqb (String.length s) 0.

Module periodic.

(** The loop over [cfg.AllPeriodics()]: the first entry of that name. *)
Fixpoint find (name : string) (jobs : list Periodic) : option Periodic :=
  match jobs with
  | [] => None
  | job :: rest =>
      if String.eqb (job_Name (per_JobBase job)) name then Some job
      else find name rest
  end.

Definition getProwJobSpec `{GoRuntime} `{Pjutil}
    (cfg : prowCfgClient) (pc : option InRepoConfigCache) (pe : ProwJobEvent)
  : result (ProwJobSpec * option loc) :=
  match find (pe_Name pe) (AllPeriodics cfg) with
  | None => Err ("failed to find associated periodic job " +:+ Quote (pe_Name pe))
  | Some periodicJob =>
      Ok (PeriodicSpec periodicJob, job_Labels (per_JobBase periodicJob))
  end.

End periodic.

Module presubmit.

(** The presubmits to match against: those of the config alone, or those
    of the inrepoconfig cache when it is given and answers. *)
Definition presubmits (cfg : prowCfgClient) (pc : option InRepoConfigCache)
    (refs : Refs) : list Presubmit :=
  let orgRepo := refs_Org refs +:+ "/" +:+ refs_Repo refs in
  let static := GetPresubmitsStatic cfg orgRepo in
  match pc with
  | None => static
  | Some pc =>
      match GetPresubmits pc orgRepo (refs_BaseSHA refs)
              (pull_SHA <$> refs_Pulls refs) with
      | Err _ => static
      | Ok presubmitsWithInrepoconfig => presubmitsWithInrepoconfig
      end
  end.

(** The matching loop; [presubmitJob] is the match found so far. *)
Fixpoint loop (name branch : string) (jobs : list Presubmit)
    (presubmitJob : option Presubmit) : result (option Presubmit) :=
  match jobs with
  | [] => Ok presubmitJob
  | job :: rest =>
      if negb (pre_CouldRun job branch) then loop name branch rest presubmitJob
      else if String.eqb (job_Name (pre_JobBase job)) name then
        match presubmitJob with
        | Some _ => Err (name +:+ " matches multiple prow jobs")
        | None => loop name branch rest (Some job)
        end
      else loop name branch rest presubmitJob
  end.

Definition getProwJobSpec `{GoRuntime} `{Pjutil}
    (cfg : prowCfgClient) (pc : option InRepoConfigCache) (pe : ProwJobEvent)
  : result (ProwJobSpec * option loc) :=
  match pe_Refs pe with
  | None => Err "Refs must be supplied"
  | Some refs =>
      if is_empty (refs_Org refs) then Err "org must be supplied"
      else if is_empty (refs_Repo refs) then Err "repo must be supplied"
      else if Nat.eqb (length (refs_Pulls refs)) 0 then Err "at least 1 Pulls is required"
      else if is_empty (refs_BaseSHA refs) then Err "baseSHA must be supplied"
      else if is_empty (refs_BaseRef refs) then Err "baseRef must be supplied"
      else
        match loop (pe_Name pe) (refs_BaseRef refs) (presubmits cfg pc refs) None with
        | Err e => Err e
        | Ok None =>
            Err ("failed to find associated presubmit job " +:+ Quote (pe_Name pe))
        | Ok (Some presubmitJob) =>
            Ok (PresubmitSpec presubmitJob refs, job_Labels (pre_JobBase presubmitJob))
        end
  end.

End presubmit.

Module postsubmit.

Definition postsubmits (cfg : prowCfgClient) (pc : option InRepoConfigCache)
    (refs : Refs) : list Postsubmit :=
  let orgRepo := refs_Org refs +:+ "/" +:+ refs_Repo refs in
  let static := GetPostsubmitsStatic cfg orgRepo in
  match pc with
  | None => static
  | Some pc =>
      match GetPostsubmits pc orgRepo (refs_BaseSHA refs) with
      | Err _ => static
      | Ok postsubmitsWithInrepoconfig => postsubmitsWithInrepoconfig
      end
  end.

Fixpoint loop (name branch : string) (jobs : list Postsubmit)
    (postsubmitJob : option Postsubmit) : result (option Postsubmit) :=
  match jobs with
  | [] => Ok postsubmitJob
  | job :: rest =>
      if negb (post_CouldRun job branch) then loop name branch rest postsubmitJob
      else if String.eqb (job_Name (post_JobBase job)) name then
        match postsubmitJob with
        | Some _ => Err (name +:+ " matches multiple prow jobs")
        | None => loop name branch rest (Some job)
        end
      else loop name branch rest postsubmitJob
  end.

Definition getProwJobSpec `{GoRuntime} `{Pjutil}
    (cfg : prowCfgClient) (pc : option InRepoConfigCache) (pe : ProwJobEvent)
  : result (ProwJobSpec * option loc) :=
  match pe_Refs pe with
  | None => Err "refs must be supplied"
  | Some refs =>
      if is_empty (refs_Org refs) then Err "org must be supplied"
      else if is_empty (refs_Repo refs) then Err "repo must be supplied"
      else if is_empty (refs_BaseSHA refs) then Err "baseSHA must be supplied"
      else if is_empty (refs_BaseRef refs) then Err "baseRef must be supplied"
      else
        match loop (pe_Name pe) (refs_BaseRef refs) (postsubmits cfg pc refs) None with
        | Err e => Err e
        | Ok None =>
            Err ("failed to find associated postsubmit job " +:+ Quote (pe_Name pe))
        | Ok (Some postsubmitJob) =>
            Ok (PostsubmitSpec postsubmitJob refs, job_Labels (post_JobBase postsubmitJob))
        end
  end.

End postsubmit.

(** [jh.getProwJobSpec(cfg, pc, pe)]. On success the resolvers of this file
    return a spec that is not [nil], together with the labels of the entry:
    [nil], or the entry's own map. *)
Definition getProwJobSpec `{GoRuntime} `{Pjutil} (jh : jobHandler)
    (cfg : prowCfgClient) (pc : option InRepoConfigCache) (pe : ProwJobEvent)
  : result (ProwJobSpec * option loc) :=
  match jh with
  | periodicJobHandler => periodic.getProwJobSpec cfg pc pe
  | presubmitJobHandler => presubmit.getProwJobSpec cfg pc pe
  | postsubmitJobHandler => postsubmit.getProwJobSpec cfg pc pe
  end.

(** ** Dispatcher *)

Definition extractFromAttribute `{GoRuntime} (attrs : gmap string string) (key : string)
  : result string :=
  match attrs !! key with
  | None => Err ("unable to find " +:+ Quote key +:+ " from the attributes")
  | Some value => Ok value
  end.

(** The closure [reportProwJob]: sets the status of the job, then asks the
    reporter whether to report and reports; a failure of the report is
    logged only. *)
Definition reportProwJob (s : Subscriber) (pj : ProwJob) (state : ProwJobState)
    (err : option error) : M unit :=
  let description :=
    match err with
    | None => "Successfully triggered prowjob."
    | Some err => "Failed creating prowjob: " +:+ err
    end in
  let pj := mkProwJob (pj_Spec pj) (pj_Labels pj) (pj_Annotations pj)
                      (mkStatus state description) in
  emit (EvShouldReport pj);;
  if Reporter_ShouldReport s pj then emit (EvReport pj) else mret tt.

Definition reportProwJobFailure (s : Subscriber) (pj : ProwJob) (err : error) : M unit :=
  reportProwJob s pj ErrorState (Some err).

Definition reportProwJobTriggered (s : Subscriber) (pj : ProwJob) : M unit :=
  reportProwJob s pj TriggeredState None.

(** The loop over [allowedClusters]. *)
Definition clusterIsAllowed (allowedClusters : list string) (cluster : string) : bool :=
  existsb (λ allowedCluster,
             String.eqb allowedCluster "*" || String.eqb allowedCluster cluster)
          allowedClusters.

(** [labels[k] = v] for each visited entry. *)
Definition assign_all (entries : list (string * string)) (labels : gmap string string)
  : gmap string string :=
  foldl (λ m kv, <[kv.1 := kv.2]> m) labels entries.

(** Adds / updates labels from the event. With [labels == nil] a new map
    is made, which only the local variable refers to; otherwise the
    assignments go to the map that [labels] refers to. The result is the
    content of [labels] after the loop. *)
Definition mergeLabels `{GoRuntime} (labels : option loc) (peLabels : gomap)
  : M (gmap string string) :=
  λ w,
    let entries := map_range 0 (contents peLabels) in
    match labels with
    | None => (assign_all entries ∅, w)
    | Some l =>
        let merged := assign_all entries (w_heap w !!! l) in
        (merged, mkWorld (w_Metrics w) (<[l := merged]> (w_heap w)) (w_trace w))
    end.

(** Adds the environments of the event to the containers: container [i]
    gets one entry per visited member of [pe.Envs], appended. *)
Definition addEnvs `{GoRuntime} (envs : gomap) (containers : list Container)
  : list Container :=
  imap (λ i c,
          mkContainer (c_Name c) (c_Image c)
            (c_Env c ++ ((λ kv, mkEnvVar kv.1 kv.2) <$> map_range (S i) (contents envs))))
       containers.

Definition withEnvs `{GoRuntime} (envs : gomap) (prowJob : ProwJob) : ProwJob :=
  match spec_PodSpec (pj_Spec prowJob) with
  | None => prowJob
  | Some podSpec =>
      mkProwJob
        (mkSpec (spec_Job (pj_Spec prowJob)) (spec_Cluster (pj_Spec prowJob))
                (spec_Refs (pj_Spec prowJob))
                (Some (mkPodSpec (addEnvs envs (Containers podSpec)))))
        (pj_Labels prowJob) (pj_Annotations prowJob) (pj_Status prowJob)
  end.

Definition cluster_not_allowed (cluster : string) : error :=
  "cluster " +:+ cluster +:+
  " is not allowed. Can be fixed by defining this cluster under pubsub_triggers -> allowed_clusters".

(** [pe.Name = strings.TrimSpace(pe.Name)] *)
Definition normalizeName `{GoRuntime} (pe : ProwJobEvent) : ProwJobEvent :=
  mkEvent (TrimSpace (pe_Name pe)) (pe_Refs pe) (pe_Envs pe)
          (pe_Labels pe) (pe_Annotations pe).

(** The status that [reportProwJob] sets on a failure. *)
Definition failed (pj : ProwJob) (err : error) : ProwJob :=
  mkProwJob (pj_Spec pj) (pj_Labels pj) (pj_Annotations pj)
            (mkStatus ErrorState ("Failed creating prowjob: " +:+ err)).

(** The status that [reportProwJob] sets on a success. *)
Definition triggered (pj : ProwJob) : ProwJob :=
  mkProwJob (pj_Spec pj) (pj_Labels pj) (pj_Annotations pj)
            (mkStatus TriggeredState "Successfully triggered prowjob.").

(** The calls that [reportProwJob] makes for a job whose status is set. *)
Definition report_calls (s : Subscriber) (pj : ProwJob) : list Event :=
  EvShouldReport pj :: (if Reporter_ShouldReport s pj then [EvReport pj] else []).

Definition handleProwJob `{GoRuntime} `{Pjutil} (s : Subscriber) (jh : jobHandler)
    (msg : Message) (subscription : string) (allowedClusters : list string)
  : M (option error) :=
  emit (EvFromPayload (msg_Data msg));;
  match FromPayload zeroEvent (msg_Data msg) with
  | Err err => mret (Some err)
  | Ok pe =>
      (* Normalize job name *)
      let pe := normalizeName pe in
      emit (EvGetProwJobSpec jh pe);;
      match getProwJobSpec jh (s_Config s) (s_InRepoConfigCache s) pe with
      | Err err =>
          let prowJob := NewProwJob zeroSpec None (pe_Annotations pe) in
          reportProwJobFailure s prowJob err;;
          mret (Some err)
      | Ok (prowJobSpec, labels) =>
          (* deny job that runs on not allowed cluster *)
          if negb (clusterIsAllowed allowedClusters (spec_Cluster prowJobSpec)) then
            let err := cluster_not_allowed (spec_Cluster prowJobSpec) in
            let prowJob := NewProwJob prowJobSpec None (pe_Annotations pe) in
            reportProwJobFailure s prowJob err;;
            mret (Some err)
          else
            (* Adds / Updates Labels from prow job event *)
            labels ← mergeLabels labels (pe_Labels pe);
            (* Adds annotations *)
            let prowJob := NewProwJob prowJobSpec (Some labels) (pe_Annotations pe) in
            (* Adds / Updates Environments to containers *)
            let prowJob := withEnvs (pe_Envs pe) prowJob in
            emit (EvCreate prowJob);;
            match ProwJobClient_Create s prowJob with
            | Some err =>
                reportProwJobFailure s prowJob err;;
                mret (Some err)
            | None =>
                reportProwJobTriggered s prowJob;;
                mret None
            end
      end
  end.

(** The end of [handleMessage], once the [switch] has chosen the handler
    [jh]. *)
Definition handleWith `{GoRuntime} `{Pjutil} (s : Subscriber) (jh : jobHandler)
    (msg : Message) (subscription : string) (allowedClusters : list string)
  : M (option error) :=
  err ← handleProwJob s jh msg subscription allowedClusters;
  match err with
  | Some _ => ErrorCounter_With subscription;; mret err
  | None => mret err
  end.

Definition handleMessage `{GoRuntime} `{Pjutil} (s : Subscriber)
    (msg : Message) (subscription : string) (allowedClusters : list string)
  : M (option error) :=
  MessageCounter_With_Inc subscription;;
  match extractFromAttribute (msg_Attributes msg) prowEventType with
  | Err err =>
      ErrorCounter_With subscription;;
      mret (Some err)
  | Ok eType =>
      if String.eqb eType periodicProwJobEvent then
        handleWith s periodicJobHandler msg subscription allowedClusters
      else if String.eqb eType presubmitProwJobEvent then
        handleWith s presubmitJobHandler msg subscription allowedClusters
      else if String.eqb eType postsubmitProwJobEvent then
        handleWith s postsubmitJobHandler msg subscription allowedClusters
      else
        ErrorCounter_With subscription;;
        mret (Some ("unsupported event type: " +:+ eType))
  end.

(** ** Observations on a trace *)

(** The jobs handed to the job client, in order. *)
Definition created (t : list Event) : list ProwJob :=
  omap (λ ev, match ev with EvCreate pj => Some pj | _ => None end) t.

(** The jobs about which the reporter was asked, in order. *)
Definition reported (t : list Event) : list ProwJob :=
  omap (λ ev, match ev with EvShouldReport pj => Some pj | _ => None end) t.

(** ** A runtime for the examples

    The operations of [GoRuntime] on plain text: names and values made of
    letters, digits, [-], [_] and [/]. On such text [exampleRuntime] agrees with
    the Go library; the parser knows the documents listed in
    [known_documents]. *)

Definition dquote : string := String (ascii_of_nat 34) EmptyString.

Definition is_space (c : ascii) : bool :=
  let n := nat_of_ascii c in
  Nat.eqb n 32 || (Nat.leb 9 n && Nat.leb n 13).

Fixpoint trim_left (s : string) : string :=
  match s with
  | String c rest => if is_space c then trim_left rest else s
  | EmptyString => EmptyString
  end.

Definition example_TrimSpace (s : string) : string :=
  String.rev (trim_left (String.rev (trim_left s))).

Fixpoint render (v : json) : string :=
  match v with
  | JNull => "null"
  | JBool true => "true"
  | JBool false => "false"
  | JNumber z => pretty z
  | JString s => dquote +:+ s +:+ dquote
  | JArray l =>
      "[" +:+
      (fix items (l : list json) : string :=
         match l with
         | [] => ""
         | x :: rest =>
             render x +:+ match rest with [] => "" | _ => "," +:+ items rest end
         end) l
      +:+ "]"
  | JObject l =>
      "{" +:+
      (fix members (l : list (string * json)) : string :=
         match l with
         | [] => ""
         | (k, x) :: rest =>
             dquote +:+ k +:+ dquote +:+ ":" +:+ render x
             +:+ match rest with [] => "" | _ => "," +:+ members rest end
         end) l
      +:+ "}"
  end.

Definition member (k : string) (kvs : list (string * json)) : option json :=
  (λ found : nat * (string * json), found.2.2)
    <$> list_find (λ kv : string * json, kv.1 = k) (reverse kvs).

Definition member_string (k : string) (kvs : list (string * json)) (old : string)
  : option string :=
  match member k kvs with
  | None | Some JNull => Some old
  | Some (JString s) => Some s
  | Some _ => None
  end.

Definition example_Pull_fromJSON (v : json) : option Pull :=
  match v with
  | JObject kvs =>
      sha ← member_string "sha" kvs "";
      match member "number" kvs with
      | None | Some JNull => Some (mkPull 0 sha)
      | Some (JNumber z) => Some (mkPull z sha)
      | Some _ => None
      end
  | _ => None
  end.

Definition example_Refs_toJSON (r : Refs) : json :=
  JObject [("org", JString (refs_Org r)); ("repo", JString (refs_Repo r));
           ("base_ref", JString (refs_BaseRef r)); ("base_sha", JString (refs_BaseSHA r));
           ("pulls", JArray ((λ p, JObject [("number", JNumber (pull_Number p));
                                             ("sha", JString (pull_SHA p))])
                             <$> refs_Pulls r))].

Definition example_Refs_fromJSON (v : json) (old : option Refs) : result (option Refs) :=
  match v with
  | JNull => Ok None
  | JObject kvs =>
      let r := default (mkRefs "" "" "" "" []) old in
      let decoded :=
        org ← member_string "org" kvs (refs_Org r);
        repo ← member_string "repo" kvs (refs_Repo r);
        baseRef ← member_string "base_ref" kvs (refs_BaseRef r);
        baseSHA ← member_string "base_sha" kvs (refs_BaseSHA r);
        pulls ← match member "pulls" kvs with
                | None => Some (refs_Pulls r)
                | Some JNull => Some []
                | Some (JArray l) => mapM example_Pull_fromJSON l
                | Some _ => None
                end;
        Some (mkRefs org repo baseRef baseSHA pulls) in
      match decoded with
      | Some r => Ok (Some r)
      | None => Err "json: cannot unmarshal into Go struct field ProwJobEvent.refs"
      end
  | _ => Err "json: cannot unmarshal into Go struct field ProwJobEvent.refs"
  end.

Definition example_parse (known : list json) (data : list byte) : result json :=
  match list_find (λ v, render v = string_of_list_byte data) known with
  | Some (_, v) => Ok v
  | None => Err "invalid character looking for beginning of value"
  end.

Definition nightly_document : json :=
  JObject [("name", JString "nightly-build"); ("labels", JObject [("run", JString "42")])].

Definition unit_tests_refs : Refs :=
  mkRefs "k8s" "api" "main" "abc" [mkPull 1 "def"].

Definition unit_tests_document : json :=
  JObject [("name", JString "unit-tests");
           ("refs", example_Refs_toJSON unit_tests_refs);
           ("envs", JObject [("GOFLAGS", JString "-race")]);
           ("labels", JObject [("run", JString "42")])].

Definition no_refs_document : json := JObject [("name", JString "unit-tests")].

Definition plain_nightly_document : json := JObject [("name", JString "nightly-build")].

Definition known_documents : list json :=
  [nightly_document; unit_tests_document; no_refs_document; plain_nightly_document].

Definition exampleRuntime : GoRuntime := {|
  Quote s := dquote +:+ s +:+ dquote;
  TrimSpace := example_TrimSpace;
  json_render v := list_byte_of_string (render v);
  json_parse := example_parse known_documents;
  json_type_error field := "json: cannot unmarshal into Go struct field ProwJobEvent." +:+ field;
  json_key_is k tag := String.eqb k tag;
  Refs_toJSON := example_Refs_toJSON;
  Refs_fromJSON := example_Refs_fromJSON;
  map_range _ m := map_to_list m
|}.

Definition examplePjutil : Pjutil := {|
  PeriodicSpec p :=
    mkSpec (job_Name (per_JobBase p)) (job_Cluster (per_JobBase p)) None
           (job_Spec (per_JobBase p));
  PresubmitSpec p refs :=
    mkSpec (job_Name (pre_JobBase p)) (job_Cluster (pre_JobBase p)) (Some refs)
           (job_Spec (pre_JobBase p));
  PostsubmitSpec p refs :=
    mkSpec (job_Name (post_JobBase p)) (job_Cluster (post_JobBase p)) (Some refs)
           (job_Spec (post_JobBase p))
|}.

(** The job that [handleProwJob] hands to the job client when the cluster
    is allowed: labels merged, annotations of the event, environments
    added. *)
Definition submitted `{GoRuntime} (w : World) (pe : ProwJobEvent) (spec : ProwJobSpec)
    (labels : option loc) : ProwJob :=
  withEnvs (pe_Envs pe)
    (NewProwJob spec (Some (mergeLabels labels (pe_Labels pe) w).1) (pe_Annotations pe)).

(** ** Example data *)

Definition example_world : World :=
  mkWorld (mkMetrics ∅ ∅) {[ 0 := {[ "team" := "infra" ]} ]} [].

Definition example_pod : PodSpec :=
  mkPodSpec [mkContainer "test" "golang" [mkEnvVar "CI" "true"];
             mkContainer "sidecar" "busybox" []].

Definition nightly_build : Periodic :=
  mkPeriodic (mkJobBase "nightly-build" (Some 0) "build" None).

Definition unit_tests : Presubmit :=
  mkPresubmit (mkJobBase "unit-tests" None "ci" (Some example_pod))
              (λ branch, String.eqb branch "main").

Definition example_config : prowCfgClient :=
  mkCfg [nightly_build]
        (λ orgRepo, if String.eqb orgRepo "k8s/api" then [unit_tests] else [])
        (λ _, []).

Definition example_subscriber : Subscriber :=
  mkSubscriber example_config None (λ _, None) (λ _, true) (λ _, None).

Definition nightly_message : Message :=
  mkMessage "1" (list_byte_of_string (render nightly_document))
            {[ prowEventType := periodicProwJobEvent ]}.

Definition nightly_event : ProwJobEvent :=
  mkEvent "nightly-build" None None (Some {[ "run" := "42" ]}) None.

Definition unit_tests_message : Message :=
  mkMessage "2" (list_byte_of_string (render unit_tests_document))
            {[ prowEventType := presubmitProwJobEvent ]}.

Definition unit_tests_event : ProwJobEvent :=
  mkEvent "unit-tests" (Some unit_tests_refs) (Some {[ "GOFLAGS" := "-race" ]})
          (Some {[ "run" := "42" ]}) None.

Definition no_refs_message : Message :=
  mkMessage "3" (list_byte_of_string (render no_refs_document))
            {[ prowEventType := presubmitProwJobEvent ]}.

Definition no_refs_event : ProwJobEvent := mkEvent "unit-tests" None None None None.

(** ** The specification's view of the resolvers *)

(** The preconditions of the presubmit resolver that an event does not
    meet, in the order refs, org, repo, pulls, baseSHA, baseRef, each as
    the error that names it. Without refs there is no field to look at. *)
Definition unmet_preconditions (pe : ProwJobEvent) : list error :=
  match pe_Refs pe with
  | None => ["Refs must be supplied"]
  | Some refs =>
      (if bool_decide (refs_Org refs = "") then ["org must be supplied"] else [])
      ++ (if bool_decide (refs_Repo refs = "") then ["repo must be supplied"] else [])
      ++ (if bool_decide (refs_Pulls refs = []) then ["at least 1 Pulls is required"] else [])
      ++ (if bool_decide (refs_BaseSHA refs = "") then ["baseSHA must be supplied"] else [])
      ++ (if bool_decide (refs_BaseRef refs = "") then ["baseRef must be supplied"] else [])
  end.

Definition presubmit_validation_errors : list error :=
  ["Refs must be supplied"; "org must be supplied"; "repo must be supplied";
   "at least 1 Pulls is required"; "baseSHA must be supplied"; "baseRef must be supplied"].

(** The entries that match an event by branch and by name. *)
Definition presubmit_matches (jobs : list Presubmit) (branch name : string)
  : list Presubmit :=
  filter (λ job, pre_CouldRun job branch = true ∧ job_Name (pre_JobBase job) = name) jobs.

Definition postsubmit_matches (jobs : list Postsubmit) (branch name : string)
  : list Postsubmit :=
  filter (λ job, post_CouldRun job branch = true ∧ job_Name (post_JobBase job) = name) jobs.

(** Handling an event ends in the resolver's error [err], and nothing is
    handed to the job client. *)
Definition resolution_fails `{GoRuntime} `{Pjutil} (s : Subscriber) (jh : jobHandler)
    (msg : Message) (subscription : string) (allowedClusters : list string) (w : World)
    (pe : ProwJobEvent) (err : error) : Prop :=
  let out := handleProwJob s jh msg subscription allowedClusters w in
  getProwJobSpec jh (s_Config s) (s_InRepoConfigCache s) (normalizeName pe) = Err err
  ∧ out.1 = Some err
  ∧ created (w_trace out.2) = created (w_trace w).

(** Refs with the four fields that both resolvers require. *)
Definition refs_complete (refs : Refs) : Prop :=
  refs_Org refs ≠ "" ∧ refs_Repo refs ≠ "" ∧ refs_BaseSHA refs ≠ "" ∧ refs_BaseRef refs ≠ "".

Definition twin_tests : Presubmit :=
  mkPresubmit (mkJobBase "unit-tests" None "other" None) (λ _, true).

Definition twin_config : prowCfgClient :=
  mkCfg [] (λ _, [unit_tests; twin_tests]) (λ _, []).

Definition twin_subscriber : Subscriber :=
  mkSubscriber twin_config None (λ _, None) (λ _, true) (λ _, None).

(** An inrepoconfig cache that answers for one repository only. *)
Definition example_cache : InRepoConfigCache :=
  mkCache (λ orgRepo _ _,
             if String.eqb orgRepo "k8s/api" then Ok [twin_tests]
             else Err "failed to fetch inrepoconfig")
          (λ _ _, Err "failed to fetch inrepoconfig").

Definition cached_subscriber : Subscriber :=
  mkSubscriber example_config (Some example_cache) (λ _, None) (λ _, true) (λ _, None).

(** The world after [handleMessage] has counted the message and has ended
    on the event class: the message counter of the subscription is one
    up, the error counter has a child for the subscription, and the heap
    and the trace are as before. *)
Definition class_error_world (subscription : string) (w : World) : World :=
  mkWorld
    (mkMetrics (Inc subscription (With subscription (MessageCounter (w_Metrics w))))
               (With subscription (ErrorCounter (w_Metrics w))))
    (w_heap w) (w_trace w).

Definition no_class_message : Message :=
  mkMessage "4" (list_byte_of_string (render nightly_document)) ∅.

Definition empty_class_message : Message :=
  mkMessage "5" (list_byte_of_string (render nightly_document)) {[ prowEventType := "" ]}.

(** A [range] over a map visits each of its entries once, in an order
    that the language leaves open. *)
Definition range_visits_each_entry_once `{GoRuntime} : Prop :=
  ∀ (n : nat) (m : gmap string string), map_range n m ≡ₚ map_to_list m.

(** The environment entries of the event, one per member of [pe.Envs]. *)
Definition env_entries (envs : gomap) : list EnvVar :=
  (λ kv, mkEnvVar kv.1 kv.2) <$> map_to_list (contents envs).

(** The tags of the fields of [ProwJobEvent]. *)
Definition event_tags : list string := ["name"; "refs"; "envs"; "labels"; "annotations"].

(** Among the tags of [ProwJobEvent], a key selects the field of its own
    tag and no other. *)
Definition tags_select_their_fields `{GoRuntime} : Prop :=
  ∀ k tag, k ∈ event_tags → tag ∈ event_tags → json_key_is k tag = String.eqb k tag.

(** The text of a value reads back as that value. *)
Definition reads_back `{GoRuntime} (v : json) : Prop :=
  json_parse (json_render v) = Ok v.

(** The refs of an event, written and decoded into a [nil] pointer, are
    the same refs. *)
Definition refs_read_back `{GoRuntime} (pe : ProwJobEvent) : Prop :=
  ∀ refs, pe_Refs pe = Some refs → Refs_fromJSON (Refs_toJSON refs) None = Ok (Some refs).

(** A second message for the same periodic job, without labels. *)
Definition plain_nightly_message : Message :=
  mkMessage "6" (list_byte_of_string (render plain_nightly_document))
            {[ prowEventType := periodicProwJobEvent ]}.

(** The dispatcher on the runtime of the examples. *)
Definition example_handleMessage := @handleMessage exampleRuntime examplePjutil.
Definition example_handleProwJob := @handleProwJob exampleRuntime examplePjutil.

(** ** Further views and example data *)

(** The preconditions of the postsubmit resolver that an event does not
    meet, in the order refs, org, repo, baseSHA, baseRef. *)
Definition postsubmit_unmet (pe : ProwJobEvent) : list error :=
  match pe_Refs pe with
  | None => ["refs must be supplied"]
  | Some refs =>
      (if bool_decide (refs_Org refs = "") then ["org must be supplied"] else [])
      ++ (if bool_decide (refs_Repo refs = "") then ["repo must be supplied"] else [])
      ++ (if bool_decide (refs_BaseSHA refs = "") then ["baseSHA must be supplied"] else [])
      ++ (if bool_decide (refs_BaseRef refs = "") then ["baseRef must be supplied"] else [])
  end.

Definition nightly_build_other : Periodic :=
  mkPeriodic (mkJobBase "nightly-build" None "other" None).

Definition duplicate_config : prowCfgClient :=
  mkCfg [nightly_build; nightly_build_other] (λ _, []) (λ _, []).

Definition reversed_twin_config : prowCfgClient :=
  mkCfg [] (λ _, [twin_tests; unit_tests]) (λ _, []).

Definition publish : Postsubmit :=
  mkPostsubmit (mkJobBase "publish" None "ci" None) (λ branch, String.eqb branch "main").

Definition publish_config : prowCfgClient :=
  mkCfg [] (λ _, [unit_tests])
        (λ orgRepo, if String.eqb orgRepo "k8s/api" then [publish] else []).

Definition push_refs : Refs := mkRefs "k8s" "api" "main" "abc" [].

Definition push_event : ProwJobEvent := mkEvent "publish" (Some push_refs) None None None.

Definition publish_cache : InRepoConfigCache :=
  mkCache (λ _ _ _, Err "failed to fetch inrepoconfig")
          (λ orgRepo _, if String.eqb orgRepo "k8s/api" then Ok []
                        else Err "failed to fetch inrepoconfig").

(** The label map that the resolver returns for a message: the location
    of the map of the matched entry, when the payload decodes, the event
    resolves and the entry has labels. *)
Definition resolved_labels `{GoRuntime} `{Pjutil} (s : Subscriber) (jh : jobHandler)
    (msg : Message) : option loc :=
  match FromPayload zeroEvent (msg_Data msg) with
  | Ok pe =>
      match getProwJobSpec jh (s_Config s) (s_InRepoConfigCache s) (normalizeName pe) with
      | Ok (_, labels) => labels
      | Err _ => None
      end
  | Err _ => None
  end.

(** The world after [handleMessage] has counted a message that ends in an
    error of [handleProwJob]. *)
Definition counted_error_world (subscription : string) (w : World)
    (heap : gmap loc (gmap string string)) (trace : list Event) : World :=
  mkWorld (w_Metrics (class_error_world subscription w)) heap trace.

Definition undecodable_message : Message :=
  mkMessage "7" (list_byte_of_string "{") {[ prowEventType := presubmitProwJobEvent ]}.

(** * The upstream merge bot

    A shallow embedding of [cmd/upstreamautomerge/main.go]. The program
    acts on its host through [bumper], [os], [time], the secret agent and
    the GitHub client; each such call is an [Action], the actions made so
    far are the state, and the [Host] says how the last action of a
    history answers. The two writers that every [bumper.Call] receives are
    the same throughout and are left out of the actions. *)

Module automerge.

Definition githubOrg : string := "openshift".
Definition githubRepo : string := "release".
Definition githubLogin : string := "openshift-bot".
Definition githubTeam : string :=
  "openshift/openshift-team-developer-productivity-test-platform".
Definition matchTitle : string := "Automate config brancher".
Definition remoteBranch : string := "auto-config-brancher".

(** What the file uses of packages outside it: the two embedded option
    groups with the fields and the validations that are read from them,
    the two label names, and the functions of [path/filepath]. *)
Class Packages := {
  FutureOptions : Type;
  GitHubOptions : Type;
  Confirm : FutureOptions → bool;
  TokenPath : GitHubOptions → string;
  FutureOptions_Validate : FutureOptions → option error;
  GitHubOptions_Validate : GitHubOptions → bool → option error;
  labels_Approved : string;
  labels_LGTM : string;
  filepath_Base : string → string;
  filepath_Join : string → string → string
}.

Record options `{Packages} := mkOptions {
  selfApprove : bool;
  o_githubLogin : string;
  gitName : string;
  gitEmail : string;
  assign : string;
  downstreamRepo : string;
  upstreamRepo : string;
  o_FutureOptions : FutureOptions;
  o_GitHubOptions : GitHubOptions
}.

Definition validateOptions `{Packages} (o : options) : option error :=
  if String.eqb (o_githubLogin o) "" then
    Some "--github-login cannot be empty string"
  else if negb (Bool.eqb (String.eqb (gitEmail o) "") (String.eqb (gitName o) "")) then
    Some "--git-name and --git-email must be specified together"
  else if String.eqb (downstreamRepo o) "" then
    Some "--downstream-repo is mandatory"
  else if String.eqb (upstreamRepo o) "" then
    Some "--upstream-repo is mandatory"
  else if String.eqb (assign o) "" then
    Some "--assign is mandatory"
  else
    match FutureOptions_Validate (o_FutureOptions o) with
    | Some err => Some err
    | None => GitHubOptions_Validate (o_GitHubOptions o) (negb (Confirm (o_FutureOptions o)))
    end.

Inductive Action :=
| Call (cmd : string) (args : list string)
| HasChanges
| SecretStart (paths : list string)
| GitHubClient (dryRun : bool)
| UserHomeDir
| Chdir (dir : string)
| Now
| GetToken (path : string)
| GitPush (remote branch : string)
| UpdatePullRequestWithLabels (org repo title body source branch headBranch : string)
    (allowMods : bool) (labels : list string) (dryRun : bool).

(** How the host answers the last action of a history: with an error or
    none, with yes or no ([bumper.HasChanges]), with a text (the home
    directory, the time in the RFC1123 layout, the token). *)
Record Host := mkHost {
  failure : list Action → option error;
  changes : list Action → bool;
  reply : list Action → string
}.

(** The program ends by returning from [main] or by [os.Exit], which is
    also how [logrus.Fatal] ends it, with status 1. *)
Inductive outcome (A : Type) : Type :=
| Done (a : A)
| Exit (status : Z).
Arguments Done {A} a.
Arguments Exit {A} status.

Definition Run (A : Type) : Type := list Action → outcome A * list Action.

#[global] Instance Run_ret : MRet Run := λ A a t, (Done a, t).
#[global] Instance Run_bind : MBind Run :=
  λ A B f m t,
    match m t with
    | (Done a, t') => f a t'
    | (Exit status, t') => (Exit status, t')
    end.

Definition exit {A : Type} (status : Z) : Run A := λ t, (Exit status, t).

(** An action, answered with an error or none. *)
Definition act (h : Host) (a : Action) : Run (option error) :=
  λ t, (Done (failure h (t ++ [a])), t ++ [a]).

(** An action, answered with a text. *)
Definition ask (h : Host) (a : Action) : Run string :=
  λ t, (Done (reply h (t ++ [a])), t ++ [a]).

(** [bumper.HasChanges()] *)
Definition hasChanges (h : Host) : Run (bool * option error) :=
  λ t, (Done (changes h (t ++ [HasChanges]), failure h (t ++ [HasChanges])),
        t ++ [HasChanges]).

(** [fmt.Sprintf("%s %s", filepath.Base(cmd), strings.Join(args, " "))] *)
Definition fullCommand `{Packages} (cmd : string) (args : list string) : string :=
  filepath_Base cmd +:+ " " +:+ String.concat " " args.

Definition commitArgs `{Packages} (author cmd : string) (args : list string) : list string :=
  ["commit"; "-m"; fullCommand cmd args; "--author"; author].

Definition runAndCommitIfNeeded `{Packages} (h : Host) (author cmd : string)
    (args : list string) : Run (bool * option error) :=
  err ← act h (Call cmd args);
  match err with
  | Some err => mret (false, Some ("failed to run " +:+ fullCommand cmd args +:+ ": " +:+ err))
  | None =>
      '(changed, err) ← hasChanges h;
      match err with
      | Some err => mret (false, Some ("error occurred when checking changes: " +:+ err))
      | None =>
          if negb changed then mret (false, None)
          else
            err ← act h (Call "git" ["add"; "."]);
            match err with
            | Some err => mret (false, Some ("failed to 'git add .': " +:+ err))
            | None =>
                err ← act h (Call "git" (commitArgs author cmd args));
                match err with
                | Some err =>
                    mret (false,
                          Some ("fail to git " +:+ String.concat " " (commitArgs author cmd args)
                                +:+ ": " +:+ err))
                | None => mret (true, None)
                end
            end
      end
  end.

(** [bumper.Call] of git in [main], fatal on an error. *)
Definition git (h : Host) (args : list string) : Run unit :=
  err ← act h (Call "git" args);
  match err with
  | Some _ => exit 1
  | None => mret tt
  end.

(** The loop over [steps] in [main]. *)
Fixpoint runSteps `{Packages} (h : Host) (author : string)
    (steps : list (string * list string)) (commitsCounter : nat) : Run nat :=
  match steps with
  | [] => mret commitsCounter
  | step :: rest =>
      runAndCommitIfNeeded h author step.1 step.2 ≫= λ ran : bool * option error,
        match ran with
        | (_, Some _) => exit 1
        | (committed, None) =>
            runSteps h author rest (if committed then S commitsCounter else commitsCounter)
        end
  end.

(** The rest of [main] after the merge: the steps, each with its own
    commit, then the push and the pull request. *)
Definition afterMerge `{Packages} (steps : list (string * list string)) (h : Host)
    (o : options) : Run unit :=
  let author := gitName o +:+ " <" +:+ gitEmail o +:+ ">" in
  commitsCounter ← runSteps h author steps 0;
  if Nat.eqb commitsCounter 0 then exit 0
  else
    now ← ask h Now;
    let title := matchTitle +:+ " by auto-config-brancher job at " +:+ now in
    token ← ask h (GetToken (TokenPath (o_GitHubOptions o)));
    err ← act h (GitPush ("https://" +:+ o_githubLogin o +:+ ":" +:+ token
                          +:+ "@github.com/" +:+ o_githubLogin o +:+ "/"
                          +:+ githubRepo +:+ ".git") remoteBranch);
    match err with
    | Some _ => exit 1
    | None =>
        let labelsToAdd :=
          if selfApprove o then [labels_Approved; labels_LGTM] else [] in
        err ← act h (UpdatePullRequestWithLabels githubOrg githubRepo title
                       ("/cc @" +:+ assign o)
                       (o_githubLogin o +:+ ":" +:+ remoteBranch)
                       "master" remoteBranch true labelsToAdd false);
        match err with
        | Some _ => exit 1
        | None => mret tt
        end
    end.

(** [main], from the options that [parseOptions] returned, with the
    [steps] as a parameter. *)
Definition mainWith `{Packages} (steps : list (string * list string)) (h : Host)
    (o : options) : Run unit :=
  match validateOptions o with
  | Some _ => exit 1
  | None =>
      err ← act h (SecretStart [TokenPath (o_GitHubOptions o)]);
      match err with
      | Some _ => exit 1
      | None =>
          err ← act h (GitHubClient (negb (Confirm (o_FutureOptions o))));
          match err with
          | Some _ => exit 1
          | None =>
              git h ["clone"; downstreamRepo o];;
              home ← ask h UserHomeDir;
              let gitRepoPath := filepath_Join home (downstreamRepo o) in
              err ← act h (Chdir gitRepoPath);
              match err with
              | Some _ => exit 1
              | None =>
                  git h ["remote"; "add"; "upstream"; upstreamRepo o];;
                  git h ["fetch"; "upstream"; "master"];;
                  now ← ask h Now;
                  let branchName := "upstream-merge-robot-" +:+ now in
                  git h ["checkout"; "-b"; branchName];;
                  (* merge upstream changes *)
                  git h ["merge"; "upstream/" +:+ branchName];;
                  afterMerge steps h o
              end
          end
      end
  end.

(** The steps of [main]: none. *)
Definition steps : list (string * list string) := [].

Definition main `{Packages} (h : Host) (o : options) : Run unit := mainWith steps h o.

End automerge.

(** ** Views and example data of the merge bot *)

(** The actions that publish the result: the push and the pull request. *)
Definition publishes (a : automerge.Action) : bool :=
  match a with
  | automerge.GitPush _ _ => true
  | automerge.UpdatePullRequestWithLabels _ _ _ _ _ _ _ _ _ _ => true
  | _ => false
  end.

(** A [git commit]. *)
Definition is_commit (a : automerge.Action) : bool :=
  match a with
  | automerge.Call cmd (arg :: _) => String.eqb cmd "git" && String.eqb arg "commit"
  | _ => false
  end.

(** The four calls of [runAndCommitIfNeeded], in order. *)
Definition commit_calls `{automerge.Packages} (author cmd : string) (args : list string)
  : list automerge.Action :=
  [automerge.Call cmd args; automerge.HasChanges; automerge.Call "git" ["add"; "."];
   automerge.Call "git" (automerge.commitArgs author cmd args)].

(** The actions of [main] up to the merge, for a home directory and a
    time. *)
Definition setup_actions `{automerge.Packages} (o : automerge.options) (home now : string)
  : list automerge.Action :=
  [automerge.SecretStart [automerge.TokenPath (automerge.o_GitHubOptions o)];
   automerge.GitHubClient (negb (automerge.Confirm (automerge.o_FutureOptions o)));
   automerge.Call "git" ["clone"; automerge.downstreamRepo o];
   automerge.UserHomeDir;
   automerge.Chdir (automerge.filepath_Join home (automerge.downstreamRepo o));
   automerge.Call "git" ["remote"; "add"; "upstream"; automerge.upstreamRepo o];
   automerge.Call "git" ["fetch"; "upstream"; "master"];
   automerge.Now;
   automerge.Call "git" ["checkout"; "-b"; "upstream-merge-robot-" +:+ now];
   automerge.Call "git" ["merge"; "upstream/" +:+ ("upstream-merge-robot-" +:+ now)]].

Fixpoint last_segment (path current : string) : string :=
  match path with
  | EmptyString => current
  | String c rest =>
      if Ascii.eqb c "/" then last_segment rest ""
      else last_segment rest (current +:+ String c "")
  end.

(** Packages for the examples: the options groups hold the confirm flag
    and the token path and are always valid; the path functions are those
    of Go on clean paths that do not end in a slash. *)
Definition examplePackages : automerge.Packages := {|
  automerge.FutureOptions := bool;
  automerge.GitHubOptions := string;
  automerge.Confirm confirm := confirm;
  automerge.TokenPath path := path;
  automerge.FutureOptions_Validate _ := None;
  automerge.GitHubOptions_Validate _ _ := None;
  automerge.labels_Approved := "approved";
  automerge.labels_LGTM := "lgtm";
  automerge.filepath_Base path := last_segment path "";
  automerge.filepath_Join dir name := dir +:+ "/" +:+ name
|}.

Definition example_options : @automerge.options examplePackages :=
  @automerge.mkOptions examplePackages true "openshift-bot" "bot" "bot@example.com"
    automerge.githubTeam "shiftstack/ci-tools" "openshift/ci-tools" true "/etc/github/token".

Definition nameless_options : @automerge.options examplePackages :=
  @automerge.mkOptions examplePackages false "openshift-bot" "" "bot@example.com"
    automerge.githubTeam "shiftstack/ci-tools" "openshift/ci-tools" true "/etc/github/token".

(** A host on which every action succeeds and there is always something
    to commit. *)
Definition obliging_host : automerge.Host :=
  automerge.mkHost (λ _, None) (λ _, true)
    (λ history, match last history with
                | Some automerge.UserHomeDir => "/home/bot"
                | Some automerge.Now => "Mon, 02 Jan 2006 15:04:05 MST"
                | _ => "token"
                end).

Definition vendor_steps : list (string * list string) := [("/usr/bin/go", ["mod"; "vendor"])].

(** * Properties *)

(** ** Running the dispatcher *)

Ltac run :=
  unfold mbind, M_bind, mret, M_ret, emit, reportProwJobFailure,
    reportProwJobTriggered, reportProwJob; simpl.

Lemma created_app (t1 t2 : list Event) : created (t1 ++ t2) = created t1 ++ created t2.
Proof. apply omap_app. Qed.

Lemma reported_app (t1 t2 : list Event) : reported (t1 ++ t2) = reported t1 ++ reported t2.
Proof. apply omap_app. Qed.

Lemma created_report_calls (s : Subscriber) (pj : ProwJob) : created (report_calls s pj) = [].
Proof. unfold report_calls. by destruct (Reporter_ShouldReport s pj). Qed.

Lemma reported_report_calls (s : Subscriber) (pj : ProwJob) :
  reported (report_calls s pj) = [pj].
Proof. unfold report_calls. by destruct (Reporter_ShouldReport s pj). Qed.

Section Dispatch.
Context `{GoRuntime} `{Pjutil}.
Variables (s : Subscriber) (jh : jobHandler) (msg : Message).
Variables (subscription : string) (allowedClusters : list string) (w : World).

(** A payload that does not decode ends the handling at once. *)
Lemma handleProwJob_decode_error (err : error) :
  FromPayload zeroEvent (msg_Data msg) = Err err →
  handleProwJob s jh msg subscription allowedClusters w
  = (Some err, mkWorld (w_Metrics w) (w_heap w)
                 (w_trace w ++ [EvFromPayload (msg_Data msg)])).
Proof. intros Hdec. unfold handleProwJob. run. by rewrite Hdec. Qed.

(** A resolver error is reported on an empty spec and returned. *)
Lemma handleProwJob_resolver_error (pe : ProwJobEvent) (err : error) :
  FromPayload zeroEvent (msg_Data msg) = Ok pe →
  getProwJobSpec jh (s_Config s) (s_InRepoConfigCache s) (normalizeName pe) = Err err →
  handleProwJob s jh msg subscription allowedClusters w
  = (Some err,
     mkWorld (w_Metrics w) (w_heap w)
       (w_trace w ++ [EvFromPayload (msg_Data msg)]
                  ++ [EvGetProwJobSpec jh (normalizeName pe)]
                  ++ report_calls s (failed (NewProwJob zeroSpec None (pe_Annotations pe)) err))).
Proof.
  intros Hdec Hres. unfold handleProwJob. run. rewrite Hdec. simpl. rewrite Hres.
  unfold report_calls, failed. simpl.
  destruct (Reporter_ShouldReport s _); simpl; by rewrite <- !app_assoc.
Qed.

(** A spec for a cluster that is not allowed is reported and refused. *)
Lemma handleProwJob_refused (pe : ProwJobEvent) (spec : ProwJobSpec) (labels : option loc) :
  FromPayload zeroEvent (msg_Data msg) = Ok pe →
  getProwJobSpec jh (s_Config s) (s_InRepoConfigCache s) (normalizeName pe)
    = Ok (spec, labels) →
  clusterIsAllowed allowedClusters (spec_Cluster spec) = false →
  handleProwJob s jh msg subscription allowedClusters w
  = (Some (cluster_not_allowed (spec_Cluster spec)),
     mkWorld (w_Metrics w) (w_heap w)
       (w_trace w ++ [EvFromPayload (msg_Data msg)]
                  ++ [EvGetProwJobSpec jh (normalizeName pe)]
                  ++ report_calls s (failed (NewProwJob spec None (pe_Annotations pe))
                                            (cluster_not_allowed (spec_Cluster spec))))).
Proof.
  intros Hdec Hres Hcl. unfold handleProwJob. run. rewrite Hdec. simpl. rewrite Hres, Hcl.
  unfold report_calls, failed. simpl.
  destruct (Reporter_ShouldReport s _); simpl; by rewrite <- !app_assoc.
Qed.

(** An allowed spec is submitted, and the outcome of the submission is
    reported and returned. *)
Lemma handleProwJob_allowed (pe : ProwJobEvent) (spec : ProwJobSpec) (labels : option loc) :
  FromPayload zeroEvent (msg_Data msg) = Ok pe →
  getProwJobSpec jh (s_Config s) (s_InRepoConfigCache s) (normalizeName pe)
    = Ok (spec, labels) →
  clusterIsAllowed allowedClusters (spec_Cluster spec) = true →
  let pj := submitted w pe spec labels in
  handleProwJob s jh msg subscription allowedClusters w
  = (ProwJobClient_Create s pj,
     mkWorld (w_Metrics w) (w_heap (mergeLabels labels (pe_Labels pe) w).2)
       (w_trace w ++ [EvFromPayload (msg_Data msg)]
                  ++ [EvGetProwJobSpec jh (normalizeName pe)]
                  ++ [EvCreate pj]
                  ++ report_calls s
                       match ProwJobClient_Create s pj with
                       | Some err => failed pj err
                       | None => triggered pj
                       end)).
Proof.
  intros Hdec Hres Hcl pj. unfold handleProwJob. run. rewrite Hdec. simpl.
  rewrite Hres, Hcl. simpl. subst pj. unfold submitted.
  destruct labels as [l|]; simpl;
    destruct (ProwJobClient_Create s _) as [err|]; simpl;
    unfold report_calls, failed, triggered; simpl;
    destruct (Reporter_ShouldReport s _); simpl; by rewrite <- !app_assoc.
Qed.

End Dispatch.

(** ** Cluster allow-list *)

Lemma clusterIsAllowed_false (allowedClusters : list string) (cluster : string) :
  cluster ∉ allowedClusters → "*" ∉ allowedClusters →
  clusterIsAllowed allowedClusters cluster = false.
Proof.
  unfold clusterIsAllowed. induction allowedClusters as [|a l IH]; simpl; [done|].
  intros Hc Hs. apply not_elem_of_cons in Hc as [Hc1 Hc2].
  apply not_elem_of_cons in Hs as [Hs1 Hs2].
  rewrite (IH Hc2 Hs2), orb_false_r. apply orb_false_iff.
  split; apply String.eqb_neq; congruence.
Qed.

Lemma clusterIsAllowed_wildcard (allowedClusters : list string) (cluster : string) :
  "*" ∈ allowedClusters → clusterIsAllowed allowedClusters cluster = true.
Proof.
  intros Hin. unfold clusterIsAllowed. apply existsb_exists. exists "*".
  split; [by apply list_elem_of_In|]. by rewrite String.eqb_refl.
Qed.

Lemma withEnvs_cluster `{GoRuntime} (envs : gomap) (pj : ProwJob) :
  spec_Cluster (pj_Spec (withEnvs envs pj)) = spec_Cluster (pj_Spec pj).
Proof. unfold withEnvs. by destruct (spec_PodSpec (pj_Spec pj)). Qed.

(** C1. A resolved spec whose cluster is no entry of [allowedClusters],
    where [allowedClusters] has no wildcard, is reported in the error
    state with a message that names the cluster; the error is returned and
    the job client is not called. With the wildcard among
    [allowedClusters], the spec of any cluster is handed to the job
    client. *)
Theorem cluster_allow_list `{GoRuntime} `{Pjutil} (s : Subscriber) (jh : jobHandler)
    (msg : Message) (subscription : string) (allowedClusters : list string) (w : World)
    (pe : ProwJobEvent) (spec : ProwJobSpec) (labels : option loc) :
  FromPayload zeroEvent (msg_Data msg) = Ok pe →
  getProwJobSpec jh (s_Config s) (s_InRepoConfigCache s) (normalizeName pe)
    = Ok (spec, labels) →
  let out := handleProwJob s jh msg subscription allowedClusters w in
  (spec_Cluster spec ∉ allowedClusters → "*" ∉ allowedClusters →
     let err := cluster_not_allowed (spec_Cluster spec) in
     let pj := mkProwJob spec None (pe_Annotations pe)
                 (mkStatus ErrorState ("Failed creating prowjob: " +:+ err)) in
     err = "cluster " +:+ spec_Cluster spec +:+
           " is not allowed. Can be fixed by defining this cluster under pubsub_triggers -> allowed_clusters"
     ∧ out.1 = Some err
     ∧ w_trace out.2
       = w_trace w ++ [EvFromPayload (msg_Data msg); EvGetProwJobSpec jh (normalizeName pe);
                       EvShouldReport pj]
                   ++ (if Reporter_ShouldReport s pj then [EvReport pj] else [])
     ∧ reported (w_trace out.2) = reported (w_trace w) ++ [pj]
     ∧ created (w_trace out.2) = created (w_trace w))
  ∧ ("*" ∈ allowedClusters →
     ∃ pj, created (w_trace out.2) = created (w_trace w) ++ [pj]
           ∧ spec_Cluster (pj_Spec pj) = spec_Cluster spec).
Proof.
  intros Hdec Hres out. split.
  - intros Hc Hs err pj. subst out.
    rewrite (handleProwJob_refused _ _ _ _ _ _ _ _ _ Hdec Hres
               (clusterIsAllowed_false _ _ Hc Hs)). cbn [fst snd w_trace].
    split; [done|]. split; [done|]. split; [|split].
    + unfold report_calls, failed, NewProwJob. by simpl.
    + by rewrite !reported_app, reported_report_calls.
    + rewrite !created_app, created_report_calls. simpl. by rewrite app_nil_r.
  - intros Hs. subst out.
    rewrite (handleProwJob_allowed _ _ _ _ _ _ _ _ _ Hdec Hres
               (clusterIsAllowed_wildcard _ _ Hs)). cbn [fst snd w_trace].
    eexists. split.
    + rewrite !created_app, created_report_calls. by simpl.
    + unfold submitted. by rewrite withEnvs_cluster.
Qed.

Lemma cluster_allow_list_witness :
  let out := example_handleProwJob example_subscriber periodicJobHandler nightly_message
               "sub" ["ci"] example_world in
  out.1 = Some (cluster_not_allowed "build") ∧ created (w_trace out.2) = [].
Proof.
  destruct (@cluster_allow_list exampleRuntime examplePjutil example_subscriber
              periodicJobHandler nightly_message "sub" ["ci"] example_world
              nightly_event (PeriodicSpec (Pjutil := examplePjutil) nightly_build) (Some 0))
    as [Hrefused _].
  - vm_compute. reflexivity.
  - vm_compute. reflexivity.
  - destruct Hrefused as (_ & Herr & _ & _ & Hcreated).
    + intros Hin. apply list_elem_of_In in Hin. simpl in Hin. intuition discriminate.
    + intros Hin. apply list_elem_of_In in Hin. simpl in Hin. intuition discriminate.
    + split; [exact Herr | exact Hcreated].
Defined.

(** ** Validation of presubmit events *)

Lemma is_empty_decide (x : string) : is_empty x = bool_decide (x = "").
Proof. by destruct x. Qed.

Lemma no_pulls_decide (pulls : list Pull) :
  Nat.eqb (length pulls) 0 = bool_decide (pulls = []).
Proof. by destruct pulls. Qed.

Lemma resolution_fails_intro `{GoRuntime} `{Pjutil} (s : Subscriber) (jh : jobHandler)
    (msg : Message) (subscription : string) (allowedClusters : list string) (w : World)
    (pe : ProwJobEvent) (err : error) :
  FromPayload zeroEvent (msg_Data msg) = Ok pe →
  getProwJobSpec jh (s_Config s) (s_InRepoConfigCache s) (normalizeName pe) = Err err →
  resolution_fails s jh msg subscription allowedClusters w pe err.
Proof.
  intros Hdec Hres. unfold resolution_fails.
  rewrite (handleProwJob_resolver_error _ _ _ _ _ _ _ _ Hdec Hres). cbn [fst snd w_trace].
  split; [done|]. split; [done|].
  rewrite !created_app, created_report_calls. simpl. by rewrite app_nil_r.
Qed.

Lemma presubmit_first_unmet `{GoRuntime} `{Pjutil} (cfg : prowCfgClient)
    (pc : option InRepoConfigCache) (pe : ProwJobEvent) (err : error) :
  head (unmet_preconditions pe) = Some err →
  presubmit.getProwJobSpec cfg pc pe = Err err.
Proof.
  unfold unmet_preconditions, presubmit.getProwJobSpec.
  destruct (pe_Refs pe) as [refs|]; [|by intros [= <-]].
  rewrite !is_empty_decide, no_pulls_decide.
  repeat case_bool_decide; simpl; by intros [= <-].
Qed.

(** C2. A presubmit event without refs, or whose refs have an empty org,
    repo, pulls list, baseSHA or baseRef, fails in the presubmit resolver
    with the error of the first unmet precondition in that order; the six
    errors are distinct, no spec is returned and nothing is handed to the
    job client. *)
Theorem presubmit_validation `{GoRuntime} `{Pjutil} (s : Subscriber) (msg : Message)
    (subscription : string) (allowedClusters : list string) (w : World)
    (pe : ProwJobEvent) (err : error) :
  FromPayload zeroEvent (msg_Data msg) = Ok pe →
  head (unmet_preconditions pe) = Some err →
  presubmit.getProwJobSpec (s_Config s) (s_InRepoConfigCache s) (normalizeName pe) = Err err
  ∧ resolution_fails s presubmitJobHandler msg subscription allowedClusters w pe err
  ∧ err ∈ presubmit_validation_errors
  ∧ NoDup presubmit_validation_errors.
Proof.
  intros Hdec Hunmet.
  assert (presubmit.getProwJobSpec (s_Config s) (s_InRepoConfigCache s) (normalizeName pe)
          = Err err) as Hres by (by apply presubmit_first_unmet).
  split; [done|]. split; [by apply resolution_fails_intro|]. split.
  - revert Hunmet. unfold unmet_preconditions, presubmit_validation_errors.
    destruct (pe_Refs pe) as [refs|]; [|intros [= <-]; set_solver].
    repeat case_bool_decide; simpl; intros [= <-]; set_solver.
  - unfold presubmit_validation_errors. apply NoDup_ListNoDup.
    repeat (constructor; [simpl; intuition discriminate|]). constructor.
Qed.

Lemma presubmit_validation_witness :
  resolution_fails (H := exampleRuntime) (H0 := examplePjutil) example_subscriber
    presubmitJobHandler no_refs_message "sub" ["*"] example_world no_refs_event
    "Refs must be supplied".
Proof.
  apply (@presubmit_validation exampleRuntime examplePjutil example_subscriber
           no_refs_message "sub" ["*"] example_world no_refs_event "Refs must be supplied").
  - vm_compute. reflexivity.
  - reflexivity.
Defined.

(** ** Matching an event against the catalog *)

(** What the matching loop returns, by the entries that match. *)
Lemma presubmit_loop_matches (name branch : string) (jobs : list Presubmit)
    (found : option Presubmit) :
  presubmit.loop name branch jobs found
  = match found, presubmit_matches jobs branch name with
    | _, [] => Ok found
    | None, [job] => Ok (Some job)
    | _, _ => Err (name +:+ " matches multiple prow jobs")
    end.
Proof.
  unfold presubmit_matches. revert found.
  induction jobs as [|job rest IH]; intros found; simpl; [by destruct found|].
  rewrite filter_cons. case_decide as Hjob.
  - destruct Hjob as [-> Hname]. simpl.
    apply String.eqb_eq in Hname as ->. destruct found; [done|].
    rewrite IH. by destruct (filter _ rest).
  - destruct (pre_CouldRun job branch); simpl; [|apply IH].
    destruct (String.eqb_spec (job_Name (pre_JobBase job)) name); [by destruct Hjob|].
    apply IH.
Qed.

Lemma postsubmit_loop_matches (name branch : string) (jobs : list Postsubmit)
    (found : option Postsubmit) :
  postsubmit.loop name branch jobs found
  = match found, postsubmit_matches jobs branch name with
    | _, [] => Ok found
    | None, [job] => Ok (Some job)
    | _, _ => Err (name +:+ " matches multiple prow jobs")
    end.
Proof.
  unfold postsubmit_matches. revert found.
  induction jobs as [|job rest IH]; intros found; simpl; [by destruct found|].
  rewrite filter_cons. case_decide as Hjob.
  - destruct Hjob as [-> Hname]. simpl.
    apply String.eqb_eq in Hname as ->. destruct found; [done|].
    rewrite IH. by destruct (filter _ rest).
  - destruct (post_CouldRun job branch); simpl; [|apply IH].
    destruct (String.eqb_spec (job_Name (post_JobBase job)) name); [by destruct Hjob|].
    apply IH.
Qed.

Lemma is_empty_false (x : string) : x ≠ "" → is_empty x = false.
Proof. by destruct x. Qed.

Lemma presubmit_resolve_complete `{GoRuntime} `{Pjutil} (cfg : prowCfgClient)
    (pc : option InRepoConfigCache) (pe : ProwJobEvent) (refs : Refs) :
  pe_Refs pe = Some refs → refs_complete refs → refs_Pulls refs ≠ [] →
  presubmit.getProwJobSpec cfg pc pe
  = match presubmit_matches (presubmit.presubmits cfg pc refs) (refs_BaseRef refs)
            (pe_Name pe) with
    | [] => Err ("failed to find associated presubmit job " +:+ Quote (pe_Name pe))
    | [job] => Ok (PresubmitSpec job refs, job_Labels (pre_JobBase job))
    | _ => Err (pe_Name pe +:+ " matches multiple prow jobs")
    end.
Proof.
  intros Hrefs (Horg & Hrepo & Hsha & Href) Hpulls. unfold presubmit.getProwJobSpec.
  rewrite Hrefs, !is_empty_false by done.
  destruct (refs_Pulls refs) as [|pull pulls] eqn:Hp; [done|]. simpl.
  rewrite presubmit_loop_matches.
  by destruct (presubmit_matches _ _ _) as [|job [|job' more]].
Qed.

Lemma postsubmit_resolve_complete `{GoRuntime} `{Pjutil} (cfg : prowCfgClient)
    (pc : option InRepoConfigCache) (pe : ProwJobEvent) (refs : Refs) :
  pe_Refs pe = Some refs → refs_complete refs →
  postsubmit.getProwJobSpec cfg pc pe
  = match postsubmit_matches (postsubmit.postsubmits cfg pc refs) (refs_BaseRef refs)
            (pe_Name pe) with
    | [] => Err ("failed to find associated postsubmit job " +:+ Quote (pe_Name pe))
    | [job] => Ok (PostsubmitSpec job refs, job_Labels (post_JobBase job))
    | _ => Err (pe_Name pe +:+ " matches multiple prow jobs")
    end.
Proof.
  intros Hrefs (Horg & Hrepo & Hsha & Href). unfold postsubmit.getProwJobSpec.
  rewrite Hrefs, !is_empty_false by done.
  rewrite postsubmit_loop_matches.
  by destruct (postsubmit_matches _ _ _) as [|job [|job' more]].
Qed.

(** C3. With two or more presubmit (postsubmit) entries of the event's
    name whose branch predicate accepts the event's baseRef, resolution
    fails with "<name> matches multiple prow jobs"; with no such entry it
    fails with "failed to find associated presubmit job" (postsubmit);
    in both cases nothing is handed to the job client. *)
Theorem ambiguous_or_missing_match `{GoRuntime} `{Pjutil} (s : Subscriber) (msg : Message)
    (subscription : string) (allowedClusters : list string) (w : World)
    (pe : ProwJobEvent) (refs : Refs) :
  FromPayload zeroEvent (msg_Data msg) = Ok pe →
  pe_Refs pe = Some refs →
  refs_complete refs →
  let name := TrimSpace (pe_Name pe) in
  let cfg := s_Config s in
  let pc := s_InRepoConfigCache s in
  (refs_Pulls refs ≠ [] →
   let n := length (presubmit_matches (presubmit.presubmits cfg pc refs)
                      (refs_BaseRef refs) name) in
   (2 ≤ n → resolution_fails s presubmitJobHandler msg subscription allowedClusters w pe
              (name +:+ " matches multiple prow jobs"))
   ∧ (n = 0 → resolution_fails s presubmitJobHandler msg subscription allowedClusters w pe
                ("failed to find associated presubmit job " +:+ Quote name)))
  ∧ (let n := length (postsubmit_matches (postsubmit.postsubmits cfg pc refs)
                        (refs_BaseRef refs) name) in
     (2 ≤ n → resolution_fails s postsubmitJobHandler msg subscription allowedClusters w pe
                (name +:+ " matches multiple prow jobs"))
     ∧ (n = 0 → resolution_fails s postsubmitJobHandler msg subscription allowedClusters w pe
                  ("failed to find associated postsubmit job " +:+ Quote name))).
Proof.
  intros Hdec Hrefs Hcomplete name cfg pc. split.
  - intros Hpulls n. subst n.
    pose proof (presubmit_resolve_complete cfg pc (normalizeName pe) refs Hrefs
                  Hcomplete Hpulls) as Hres.
    simpl in Hres. fold name in Hres.
    destruct (presubmit_matches _ _ _) as [|job [|job' more]]; simpl;
      (split; intros Hn; [try lia|try done]); by apply resolution_fails_intro.
  - intros n. subst n.
    pose proof (postsubmit_resolve_complete cfg pc (normalizeName pe) refs Hrefs
                  Hcomplete) as Hres.
    simpl in Hres. fold name in Hres.
    destruct (postsubmit_matches _ _ _) as [|job [|job' more]]; simpl;
      (split; intros Hn; [try lia|try done]); by apply resolution_fails_intro.
Qed.

Lemma ambiguous_or_missing_match_witness :
  resolution_fails (H := exampleRuntime) (H0 := examplePjutil) twin_subscriber
    presubmitJobHandler unit_tests_message "sub" ["*"] example_world unit_tests_event
    "unit-tests matches multiple prow jobs"
  ∧ resolution_fails (H := exampleRuntime) (H0 := examplePjutil) example_subscriber
      postsubmitJobHandler unit_tests_message "sub" ["*"] example_world unit_tests_event
      ("failed to find associated postsubmit job " +:+ dquote +:+ "unit-tests" +:+ dquote).
Proof.
  split.
  - refine (proj1 (proj1 (@ambiguous_or_missing_match exampleRuntime examplePjutil
             twin_subscriber unit_tests_message "sub" ["*"] example_world unit_tests_event
             unit_tests_refs _ _ _) _) _).
    + vm_compute. reflexivity.
    + reflexivity.
    + unfold refs_complete. simpl. intuition discriminate.
    + simpl. discriminate.
    + vm_compute. lia.
  - refine (proj2 (proj2 (@ambiguous_or_missing_match exampleRuntime examplePjutil
             example_subscriber unit_tests_message "sub" ["*"] example_world
             unit_tests_event unit_tests_refs _ _ _)) _).
    + vm_compute. reflexivity.
    + reflexivity.
    + unfold refs_complete. simpl. intuition discriminate.
    + vm_compute. reflexivity.
Defined.

(** ** The dynamic catalog *)

(** C7. With an inrepoconfig cache configured, a successful lookup
    replaces the static presubmits: the resolver works on the looked-up
    list alone, whatever the static list holds. A failed lookup leaves the
    static list in place, and the resolver returns what it returns
    without a cache: the lookup error does not reach the caller. *)
Theorem dynamic_presubmits `{GoRuntime} `{Pjutil} (cfg : prowCfgClient)
    (pc : InRepoConfigCache) (pe : ProwJobEvent) (refs : Refs) :
  pe_Refs pe = Some refs →
  let orgRepo := refs_Org refs +:+ "/" +:+ refs_Repo refs in
  let lookup := GetPresubmits pc orgRepo (refs_BaseSHA refs) (pull_SHA <$> refs_Pulls refs) in
  (∀ found, lookup = Ok found →
     presubmit.presubmits cfg (Some pc) refs = found
     ∧ ∀ cfg', presubmit.getProwJobSpec cfg' (Some pc) pe
               = presubmit.getProwJobSpec cfg (Some pc) pe)
  ∧ (∀ err, lookup = Err err →
       presubmit.presubmits cfg (Some pc) refs = GetPresubmitsStatic cfg orgRepo
       ∧ presubmit.getProwJobSpec cfg (Some pc) pe = presubmit.getProwJobSpec cfg None pe).
Proof.
  intros Hrefs orgRepo lookup. split.
  - intros found Hfound.
    assert (∀ c, presubmit.presubmits c (Some pc) refs = found) as Hlist.
    { intros c. unfold presubmit.presubmits. fold orgRepo lookup. by rewrite Hfound. }
    split; [apply Hlist|]. intros cfg'.
    unfold presubmit.getProwJobSpec. rewrite Hrefs. by rewrite !Hlist.
  - intros err Herr.
    assert (presubmit.presubmits cfg (Some pc) refs = presubmit.presubmits cfg None refs)
      as Hlist.
    { unfold presubmit.presubmits. fold orgRepo lookup. by rewrite Herr. }
    split; [by rewrite Hlist|].
    unfold presubmit.getProwJobSpec. rewrite Hrefs. by rewrite Hlist.
Qed.

Lemma dynamic_presubmits_witness :
  presubmit.presubmits example_config (Some example_cache) unit_tests_refs = [twin_tests].
Proof.
  refine (proj1 (proj1 (@dynamic_presubmits exampleRuntime examplePjutil example_config
            example_cache unit_tests_event unit_tests_refs _) [twin_tests] _)).
  - reflexivity.
  - reflexivity.
Defined.

(** ** The event class *)

Lemma missing_is_not_unsupported `{GoRuntime} (key value : string) :
  "unable to find " +:+ Quote key +:+ " from the attributes"
  ≠ "unsupported event type: " +:+ value.
Proof. simpl. discriminate. Qed.

(** C10. The missing-attribute error arises only when the event-class key
    is absent from the attributes. When the key is there with the empty
    string, or any value other than the three classes, [handleMessage]
    fails with the unsupported-event-type error, which is another error.
    In both cases the payload is not decoded and no resolver runs: the
    trace and the heap are as before, whatever the payload and the catalog. *)
Theorem event_class_errors `{GoRuntime} `{Pjutil} (s : Subscriber) (msg : Message)
    (subscription : string) (allowedClusters : list string) (w : World) :
  (msg_Attributes msg !! prowEventType = None →
     handleMessage s msg subscription allowedClusters w
     = (Some ("unable to find " +:+ Quote prowEventType +:+ " from the attributes"),
        class_error_world subscription w))
  ∧ (∀ eType, msg_Attributes msg !! prowEventType = Some eType →
       eType ≠ periodicProwJobEvent → eType ≠ presubmitProwJobEvent →
       eType ≠ postsubmitProwJobEvent →
       handleMessage s msg subscription allowedClusters w
       = (Some ("unsupported event type: " +:+ eType), class_error_world subscription w)
       ∧ "unsupported event type: " +:+ eType
         ≠ "unable to find " +:+ Quote prowEventType +:+ " from the attributes").
Proof.
  split.
  - intros Hmissing. unfold handleMessage, extractFromAttribute. rewrite Hmissing. by run.
  - intros eType Hthere Hper Hpre Hpost. split.
    + unfold handleMessage, extractFromAttribute. rewrite Hthere.
      apply String.eqb_neq in Hper, Hpre, Hpost. rewrite Hper, Hpre, Hpost. by run.
    + intros Heq. by apply (missing_is_not_unsupported prowEventType eType).
Qed.

Lemma event_class_errors_witness :
  example_handleMessage example_subscriber empty_class_message "sub" ["*"] example_world
  = (Some "unsupported event type: ", class_error_world "sub" example_world)
  ∧ example_handleMessage example_subscriber no_class_message "sub" ["*"] example_world
    = (Some ("unable to find " +:+ dquote +:+ prowEventType +:+ dquote
             +:+ " from the attributes"),
       class_error_world "sub" example_world).
Proof.
  pose proof (@event_class_errors exampleRuntime examplePjutil example_subscriber
                empty_class_message "sub" ["*"] example_world) as [_ Hempty].
  pose proof (@event_class_errors exampleRuntime examplePjutil example_subscriber
                no_class_message "sub" ["*"] example_world) as [Hmissing _].
  split.
  - apply (Hempty ""); [reflexivity | discriminate | discriminate | discriminate].
  - apply Hmissing. reflexivity.
Defined.

(** ** Merging labels *)

Lemma assign_all_lookup (entries : list (string * string)) (labels : gmap string string)
    (k : string) :
  NoDup entries.*1 →
  assign_all entries labels !! k
  = match (list_to_map entries : gmap string string) !! k with
    | Some v => Some v
    | None => labels !! k
    end.
Proof.
  unfold assign_all. revert labels.
  induction entries as [|[k0 v0] rest IH]; intros labels Hnodup; simpl.
  - by rewrite lookup_empty.
  - apply NoDup_cons in Hnodup as [Hfresh Hnodup]. rewrite (IH _ Hnodup).
    destruct (decide (k = k0)) as [->|Hne].
    + rewrite lookup_insert_eq.
      by rewrite (not_elem_of_list_to_map_1 _ _ Hfresh), lookup_insert_eq.
    + rewrite (lookup_insert_ne (list_to_map rest)) by done.
      destruct (list_to_map rest !! k); [done|]. by rewrite lookup_insert_ne.
Qed.

Lemma assign_all_union (entries : list (string * string)) (m labels : gmap string string) :
  entries ≡ₚ map_to_list m → assign_all entries labels = m ∪ labels.
Proof.
  intros Hperm. apply map_eq. intros k.
  assert (NoDup entries.*1) as Hnodup.
  { rewrite Hperm. apply NoDup_fst_map_to_list. }
  rewrite (assign_all_lookup _ _ _ Hnodup).
  rewrite (list_to_map_proper _ _ Hnodup Hperm), list_to_map_to_list, lookup_union.
  by destruct (m !! k), (labels !! k).
Qed.

Lemma withEnvs_labels `{GoRuntime} (envs : gomap) (pj : ProwJob) :
  pj_Labels (withEnvs envs pj) = pj_Labels pj.
Proof. unfold withEnvs. by destruct (spec_PodSpec (pj_Spec pj)). Qed.

Lemma created_after_allowed `{GoRuntime} `{Pjutil} (s : Subscriber) (jh : jobHandler)
    (msg : Message) (subscription : string) (allowedClusters : list string) (w : World)
    (pe : ProwJobEvent) (spec : ProwJobSpec) (labels : option loc) :
  FromPayload zeroEvent (msg_Data msg) = Ok pe →
  getProwJobSpec jh (s_Config s) (s_InRepoConfigCache s) (normalizeName pe)
    = Ok (spec, labels) →
  clusterIsAllowed allowedClusters (spec_Cluster spec) = true →
  created (w_trace (handleProwJob s jh msg subscription allowedClusters w).2)
  = created (w_trace w) ++ [submitted w pe spec labels].
Proof.
  intros Hdec Hres Hcl. rewrite (handleProwJob_allowed _ _ _ _ _ _ _ _ _ Hdec Hres Hcl).
  cbn [fst snd w_trace]. rewrite !created_app, created_report_calls. by simpl.
Qed.

(** C4. The labels of the submitted job are the base labels that the
    resolver returned, taken as empty when it returned none, overlaid with
    the labels of the event: a key of the event has the event's value, any
    other key has the base value. *)
Theorem merged_labels `{GoRuntime} `{Pjutil} (s : Subscriber) (jh : jobHandler)
    (msg : Message) (subscription : string) (allowedClusters : list string) (w : World)
    (pe : ProwJobEvent) (spec : ProwJobSpec) (labels : option loc) :
  range_visits_each_entry_once →
  FromPayload zeroEvent (msg_Data msg) = Ok pe →
  getProwJobSpec jh (s_Config s) (s_InRepoConfigCache s) (normalizeName pe)
    = Ok (spec, labels) →
  clusterIsAllowed allowedClusters (spec_Cluster spec) = true →
  let base : gmap string string :=
    match labels with None => ∅ | Some l => w_heap w !!! l end in
  let event := contents (pe_Labels pe) in
  ∃ pj merged,
    created (w_trace (handleProwJob s jh msg subscription allowedClusters w).2)
      = created (w_trace w) ++ [pj]
    ∧ pj_Labels pj = Some merged
    ∧ merged = event ∪ base
    ∧ (∀ k v, event !! k = Some v → merged !! k = Some v)
    ∧ (∀ k, event !! k = None → merged !! k = base !! k).
Proof.
  intros Hrange Hdec Hres Hcl base event.
  exists (submitted w pe spec labels), (event ∪ base).
  split; [by apply created_after_allowed|]. split; [|split; [done|split]].
  - unfold submitted. rewrite withEnvs_labels. simpl. f_equal.
    unfold mergeLabels, base, event. destruct labels as [l|]; simpl;
      by rewrite (assign_all_union _ _ _ (Hrange 0 _)).
  - intros k v Hk. by apply lookup_union_Some_l.
  - intros k Hk. by apply lookup_union_r.
Qed.

Lemma example_range_visits_each_entry_once :
  range_visits_each_entry_once (H := exampleRuntime).
Proof. intros n m. reflexivity. Qed.

Lemma merged_labels_witness :
  ∃ pj merged,
    created (w_trace (example_handleProwJob example_subscriber periodicJobHandler
                        nightly_message "sub" ["*"] example_world).2) = [] ++ [pj]
    ∧ pj_Labels pj = Some merged
    ∧ merged = {[ "run" := "42" ]} ∪ {[ "team" := "infra" ]}.
Proof.
  destruct (@merged_labels exampleRuntime examplePjutil example_subscriber
              periodicJobHandler nightly_message "sub" ["*"] example_world
              nightly_event (PeriodicSpec (Pjutil := examplePjutil) nightly_build) (Some 0))
    as (pj & merged & Hcreated & Hlabels & Hmerged & _).
  - intros n m. reflexivity.
  - vm_compute. reflexivity.
  - vm_compute. reflexivity.
  - reflexivity.
  - exists pj, merged. split; [exact Hcreated|]. split; [exact Hlabels|]. exact Hmerged.
Defined.

(** ** Adding environments *)

Lemma addEnvs_lookup `{GoRuntime} (envs : gomap) (containers : list Container) (i : nat) :
  addEnvs envs containers !! i
  = (λ c, mkContainer (c_Name c) (c_Image c)
            (c_Env c ++ ((λ kv, mkEnvVar kv.1 kv.2) <$> map_range (S i) (contents envs))))
    <$> containers !! i.
Proof. unfold addEnvs. apply list_lookup_imap. Qed.

Lemma addEnvs_none `{GoRuntime} (envs : gomap) (containers : list Container) :
  range_visits_each_entry_once → contents envs = ∅ → addEnvs envs containers = containers.
Proof.
  intros Hrange Hempty. apply list_eq. intros i. rewrite addEnvs_lookup.
  destruct (containers !! i) as [[name image env]|]; [|done]. simpl.
  pose proof (Hrange (S i) (contents envs)) as Hperm.
  rewrite Hempty, map_to_list_empty in Hperm. apply Permutation_nil_r in Hperm.
  by rewrite Hempty, Hperm, app_nil_r.
Qed.

(** C9. When the resolved spec carries a pod template, each container of
    the submitted job has its original environment list followed by one
    entry per environment variable of the event; every container gets the
    entries of the same variables, and the original entries stay as they
    are, also those of a name that the event supplies. Without a pod
    template, or without envs in the event, the spec is submitted as
    resolved. *)
Theorem environments_appended `{GoRuntime} `{Pjutil} (s : Subscriber) (jh : jobHandler)
    (msg : Message) (subscription : string) (allowedClusters : list string) (w : World)
    (pe : ProwJobEvent) (spec : ProwJobSpec) (labels : option loc) :
  range_visits_each_entry_once →
  FromPayload zeroEvent (msg_Data msg) = Ok pe →
  getProwJobSpec jh (s_Config s) (s_InRepoConfigCache s) (normalizeName pe)
    = Ok (spec, labels) →
  clusterIsAllowed allowedClusters (spec_Cluster spec) = true →
  ∃ pj,
    created (w_trace (handleProwJob s jh msg subscription allowedClusters w).2)
      = created (w_trace w) ++ [pj]
    ∧ match spec_PodSpec spec with
      | None => pj_Spec pj = spec
      | Some pod =>
          ∃ pod',
            spec_PodSpec (pj_Spec pj) = Some pod'
            ∧ length (Containers pod') = length (Containers pod)
            ∧ ∀ i c, Containers pod !! i = Some c →
                ∃ added,
                  Containers pod' !! i
                    = Some (mkContainer (c_Name c) (c_Image c) (c_Env c ++ added))
                  ∧ added ≡ₚ env_entries (pe_Envs pe)
      end
    ∧ (contents (pe_Envs pe) = ∅ → pj_Spec pj = spec).
Proof.
  intros Hrange Hdec Hres Hcl. exists (submitted w pe spec labels).
  split; [by apply created_after_allowed|].
  unfold submitted, withEnvs, NewProwJob. simpl. split.
  - destruct (spec_PodSpec spec) as [pod|] eqn:Hpod; simpl; [|done].
    eexists. split; [done|]. simpl. split.
    + unfold addEnvs. by rewrite length_imap.
    + intros i c Hc. eexists. rewrite addEnvs_lookup, Hc. simpl. split; [done|].
      unfold env_entries. by rewrite (Hrange (S i) _).
  - intros Hempty. destruct spec as [job cluster refs [[containers]|]]; simpl; [|done].
    by rewrite (addEnvs_none _ _ Hrange Hempty).
Qed.

Lemma environments_appended_witness :
  ∃ pj,
    created (w_trace (example_handleProwJob example_subscriber presubmitJobHandler
                        unit_tests_message "sub" ["ci"] example_world).2) = [] ++ [pj]
    ∧ ∃ pod',
        spec_PodSpec (pj_Spec pj) = Some pod'
        ∧ ∀ i c, Containers example_pod !! i = Some c →
            ∃ added,
              Containers pod' !! i
                = Some (mkContainer (c_Name c) (c_Image c) (c_Env c ++ added))
              ∧ added ≡ₚ [mkEnvVar "GOFLAGS" "-race"].
Proof.
  destruct (@environments_appended exampleRuntime examplePjutil example_subscriber
              presubmitJobHandler unit_tests_message "sub" ["ci"] example_world
              unit_tests_event
              (PresubmitSpec (Pjutil := examplePjutil) unit_tests unit_tests_refs) None)
    as (pj & Hcreated & (pod' & Hpod & _ & Hadded) & _).
  - exact example_range_visits_each_entry_once.
  - vm_compute. reflexivity.
  - vm_compute. reflexivity.
  - reflexivity.
  - exists pj. split; [exact Hcreated|]. exists pod'. split; [exact Hpod|].
    intros i c Hc. destruct (Hadded i c Hc) as (added & Hlookup & Hperm).
    exists added. split; [exact Hlookup|]. exact Hperm.
Defined.

(** ** Round trip of the payload *)

Lemma decode_entries_strings `{GoRuntime} (field : string) (entries : list (string * string))
    (m : gmap string string) :
  decode_entries field (prod_map id JString <$> entries) m = Ok (assign_all entries m).
Proof.
  revert m. induction entries as [|[k v] rest IH]; intros m; simpl; [done|]. apply IH.
Qed.

Lemma decode_map_toJSON `{GoRuntime} (field : string) (m : gmap string string) :
  decode_map field (map_toJSON m) None = Ok (Some m).
Proof.
  unfold decode_map, map_toJSON. rewrite decode_entries_strings. simpl.
  rewrite (assign_all_union _ m) by apply merge_sort_Permutation.
  by rewrite (right_id_L ∅ (∪)).
Qed.

Section Tags.
Context `{GoRuntime}.
Hypothesis Hkeys : tags_select_their_fields.

Ltac select_field :=
  unfold decode_member;
  rewrite ?Hkeys by (unfold event_tags; set_solver);
  cbn [String.eqb Ascii.eqb Bool.eqb].

Lemma decode_member_name (s : string) (pe : ProwJobEvent) :
  decode_member "name" (JString s) pe
  = Ok (mkEvent s (pe_Refs pe) (pe_Envs pe) (pe_Labels pe) (pe_Annotations pe)).
Proof using Hkeys. by select_field. Qed.

Lemma decode_member_refs (refs : Refs) (pe : ProwJobEvent) :
  pe_Refs pe = None →
  Refs_fromJSON (Refs_toJSON refs) None = Ok (Some refs) →
  decode_member "refs" (Refs_toJSON refs) pe
  = Ok (mkEvent (pe_Name pe) (Some refs) (pe_Envs pe) (pe_Labels pe) (pe_Annotations pe)).
Proof using Hkeys. intros Hnil Hrefs. select_field. by rewrite Hnil, Hrefs. Qed.

Lemma decode_member_envs (m : gmap string string) (pe : ProwJobEvent) :
  pe_Envs pe = None →
  decode_member "envs" (map_toJSON m) pe
  = Ok (mkEvent (pe_Name pe) (pe_Refs pe) (Some m) (pe_Labels pe) (pe_Annotations pe)).
Proof using Hkeys. intros Hnil. select_field. by rewrite Hnil, decode_map_toJSON. Qed.

Lemma decode_member_labels (m : gmap string string) (pe : ProwJobEvent) :
  pe_Labels pe = None →
  decode_member "labels" (map_toJSON m) pe
  = Ok (mkEvent (pe_Name pe) (pe_Refs pe) (pe_Envs pe) (Some m) (pe_Annotations pe)).
Proof using Hkeys. intros Hnil. select_field. by rewrite Hnil, decode_map_toJSON. Qed.

Lemma decode_member_annotations (m : gmap string string) (pe : ProwJobEvent) :
  pe_Annotations pe = None →
  decode_member "annotations" (map_toJSON m) pe
  = Ok (mkEvent (pe_Name pe) (pe_Refs pe) (pe_Envs pe) (pe_Labels pe) (Some m)).
Proof using Hkeys. intros Hnil. select_field. by rewrite Hnil, decode_map_toJSON. Qed.

End Tags.

Lemma contents_unpopulated (m : gomap) : gomap_empty m = true → contents None = contents m.
Proof. unfold gomap_empty. by intros ->%bool_decide_eq_true. Qed.



(** ** The counters *)

Lemma With_value (subscription label : string) (vec : gmap string nat) :
  counter_value (With subscription vec) label = counter_value vec label.
Proof.
  unfold With, counter_value. destruct (vec !! subscription) eqn:Hchild; [done|].
  destruct (decide (subscription = label)) as [<-|Hne].
  - by rewrite lookup_insert_eq, Hchild.
  - by rewrite lookup_insert_ne.
Qed.

Lemma With_Inc_value (subscription : string) (vec : gmap string nat) :
  counter_value (Inc subscription (With subscription vec)) subscription
  = S (counter_value vec subscription).
Proof.
  unfold Inc, With, counter_value. rewrite lookup_alter_eq.
  destruct (vec !! subscription) eqn:Hchild; simpl.
  - by rewrite Hchild.
  - by rewrite lookup_insert_eq.
Qed.

Lemma handleProwJob_metrics `{GoRuntime} `{Pjutil} (s : Subscriber) (jh : jobHandler)
    (msg : Message) (subscription : string) (allowedClusters : list string) (w : World) :
  w_Metrics (handleProwJob s jh msg subscription allowedClusters w).2 = w_Metrics w.
Proof.
  destruct (FromPayload zeroEvent (msg_Data msg)) as [pe|err] eqn:Hdec.
  - destruct (getProwJobSpec jh (s_Config s) (s_InRepoConfigCache s) (normalizeName pe))
      as [[spec labels]|err] eqn:Hres.
    + destruct (clusterIsAllowed allowedClusters (spec_Cluster spec)) eqn:Hcl.
      * by rewrite (handleProwJob_allowed _ _ _ _ _ _ _ _ _ Hdec Hres Hcl).
      * by rewrite (handleProwJob_refused _ _ _ _ _ _ _ _ _ Hdec Hres Hcl).
    + by rewrite (handleProwJob_resolver_error _ _ _ _ _ _ _ _ Hdec Hres).
  - by rewrite (handleProwJob_decode_error _ _ _ _ _ _ _ Hdec).
Qed.

Lemma handleWith_run `{GoRuntime} `{Pjutil} (s : Subscriber) (jh : jobHandler)
    (msg : Message) (subscription : string) (allowedClusters : list string) (w : World) :
  let out := handleProwJob s jh msg subscription allowedClusters w in
  handleWith s jh msg subscription allowedClusters w
  = (out.1,
     match out.1 with
     | Some _ =>
         mkWorld (mkMetrics (MessageCounter (w_Metrics w))
                            (With subscription (ErrorCounter (w_Metrics w))))
                 (w_heap out.2) (w_trace out.2)
     | None => out.2
     end).
Proof.
  intros out. unfold handleWith. run.
  pose proof (handleProwJob_metrics s jh msg subscription allowedClusters w) as Hm.
  fold out in Hm. fold out. destruct out as [[err|] w']; simpl in *; [|done].
  unfold ErrorCounter_With. by rewrite Hm.
Qed.

(** What [handleMessage] does after it has counted the message. *)
Lemma handleMessage_run `{GoRuntime} `{Pjutil} (s : Subscriber) (msg : Message)
    (subscription : string) (allowedClusters : list string) (w : World) :
  let w1 := mkWorld
              (mkMetrics (Inc subscription (With subscription (MessageCounter (w_Metrics w))))
                         (ErrorCounter (w_Metrics w)))
              (w_heap w) (w_trace w) in
  handleMessage s msg subscription allowedClusters w
  = match msg_Attributes msg !! prowEventType with
    | None => (Some ("unable to find " +:+ Quote prowEventType +:+ " from the attributes"),
               class_error_world subscription w)
    | Some eType =>
        if String.eqb eType periodicProwJobEvent then
          handleWith s periodicJobHandler msg subscription allowedClusters w1
        else if String.eqb eType presubmitProwJobEvent then
          handleWith s presubmitJobHandler msg subscription allowedClusters w1
        else if String.eqb eType postsubmitProwJobEvent then
          handleWith s postsubmitJobHandler msg subscription allowedClusters w1
        else (Some ("unsupported event type: " +:+ eType), class_error_world subscription w)
    end.
Proof.
  intros w1. unfold handleMessage, extractFromAttribute. run.
  destruct (msg_Attributes msg !! prowEventType) as [eType|]; [|done].
  by repeat (case_match; try done).
Qed.

Lemma handleMessage_counters `{GoRuntime} `{Pjutil} (s : Subscriber) (msg : Message)
    (subscription : string) (allowedClusters : list string) (w : World) :
  let w' := (handleMessage s msg subscription allowedClusters w).2 in
  (∀ label, counter_value (ErrorCounter (w_Metrics w')) label
            = counter_value (ErrorCounter (w_Metrics w)) label)
  ∧ counter_value (MessageCounter (w_Metrics w')) subscription
    = S (counter_value (MessageCounter (w_Metrics w)) subscription).
Proof.
  intros w'. subst w'. rewrite handleMessage_run.
  assert (∀ jh (w1 : World),
    let w2 := (handleWith s jh msg subscription allowedClusters w1).2 in
    (∀ label, counter_value (ErrorCounter (w_Metrics w2)) label
              = counter_value (ErrorCounter (w_Metrics w1)) label)
    ∧ MessageCounter (w_Metrics w2) = MessageCounter (w_Metrics w1)) as Hwith.
  { intros jh w1. rewrite handleWith_run.
    pose proof (handleProwJob_metrics s jh msg subscription allowedClusters w1) as Hm.
    destruct (handleProwJob s jh msg subscription allowedClusters w1) as [[err|] w2];
      simpl in *.
    - split; [intros label; apply With_value|done].
    - by rewrite Hm. }
  destruct (msg_Attributes msg !! prowEventType) as [eType|]; simpl.
  - assert (∀ jh,
      let w2 := (handleWith s jh msg subscription allowedClusters
                   (mkWorld
                      (mkMetrics
                         (Inc subscription (With subscription (MessageCounter (w_Metrics w))))
                         (ErrorCounter (w_Metrics w)))
                      (w_heap w) (w_trace w))).2 in
      (∀ label, counter_value (ErrorCounter (w_Metrics w2)) label
                = counter_value (ErrorCounter (w_Metrics w)) label)
      ∧ counter_value (MessageCounter (w_Metrics w2)) subscription
        = S (counter_value (MessageCounter (w_Metrics w)) subscription)) as Hjh.
    { intros jh w2. subst w2. destruct (Hwith jh (mkWorld
        (mkMetrics (Inc subscription (With subscription (MessageCounter (w_Metrics w))))
                   (ErrorCounter (w_Metrics w))) (w_heap w) (w_trace w))) as [Herr Hmsg].
      simpl in Herr, Hmsg. split; [exact Herr | rewrite Hmsg; apply With_Inc_value]. }
    destruct (String.eqb eType periodicProwJobEvent); [apply Hjh|].
    destruct (String.eqb eType presubmitProwJobEvent); [apply Hjh|].
    destruct (String.eqb eType postsubmitProwJobEvent); [apply Hjh|].
    split; [intros label; apply With_value | apply With_Inc_value].
  - split; [intros label; apply With_value | apply With_Inc_value].
Qed.

(** C5. The error counter of the subscription is to go up by one when
    the handling of a message ends in an error. [handleMessage] selects
    the child counter of the subscription and leaves its value alone: no
    message changes the value of the error counter, whereas the message
    counter goes up with every message. A message without the event-class
    attribute ends in an error with the error counter still at zero. *)
Theorem error_counter_not_incremented :
  (∀ `{GoRuntime} `{Pjutil} (s : Subscriber) (msg : Message) (subscription : string)
     (allowedClusters : list string) (w : World),
     let w' := (handleMessage s msg subscription allowedClusters w).2 in
     counter_value (ErrorCounter (w_Metrics w')) subscription
       = counter_value (ErrorCounter (w_Metrics w)) subscription
     ∧ counter_value (MessageCounter (w_Metrics w')) subscription
       = S (counter_value (MessageCounter (w_Metrics w)) subscription))
  ∧ (let out := example_handleMessage example_subscriber no_class_message "sub" ["*"]
                  example_world in
     out.1 = Some ("unable to find " +:+ dquote +:+ prowEventType +:+ dquote
                   +:+ " from the attributes")
     ∧ counter_value (ErrorCounter (w_Metrics example_world)) "sub" = 0
     ∧ counter_value (ErrorCounter (w_Metrics out.2)) "sub" = 0).
Proof.
  split.
  - intros R P s msg subscription allowedClusters w w'.
    destruct (handleMessage_counters s msg subscription allowedClusters w) as [Herr Hmsg].
    split; [apply Herr | apply Hmsg].
  - vm_compute. done.
Qed.

(** ** The catalog under label merging *)

(** Where the resolver returned the map of a catalog entry, the heap
    holds the merged labels at the location of that map after the job
    was submitted. *)
Lemma heap_after_merge `{GoRuntime} `{Pjutil} (s : Subscriber) (jh : jobHandler)
    (msg : Message) (subscription : string) (allowedClusters : list string) (w : World)
    (pe : ProwJobEvent) (spec : ProwJobSpec) (l : loc) :
  range_visits_each_entry_once →
  FromPayload zeroEvent (msg_Data msg) = Ok pe →
  getProwJobSpec jh (s_Config s) (s_InRepoConfigCache s) (normalizeName pe)
    = Ok (spec, Some l) →
  clusterIsAllowed allowedClusters (spec_Cluster spec) = true →
  w_heap (handleProwJob s jh msg subscription allowedClusters w).2
  = <[l := contents (pe_Labels pe) ∪ (w_heap w !!! l)]> (w_heap w).
Proof.
  intros Hrange Hdec Hres Hcl.
  rewrite (handleProwJob_allowed _ _ _ _ _ _ _ _ _ Hdec Hres Hcl). simpl.
  by rewrite (assign_all_union _ _ _ (Hrange 0 _)).
Qed.

(** C6. The catalog is to be left as it is by the handling of an event.
    [handleProwJob] assigns the labels of the event into the map that the
    resolver returned, which is the [Labels] map of the catalog entry
    itself: after a periodic event with the label [run], the entry
    [nightly-build] of the catalog has that label too, and the job of a
    later event without labels is submitted with it. *)
Theorem catalog_labels_overwritten :
  let out := example_handleMessage example_subscriber nightly_message "sub" ["*"]
               example_world in
  let next := example_handleMessage example_subscriber plain_nightly_message "sub" ["*"]
                out.2 in
  out.1 = None
  ∧ AllPeriodics (s_Config example_subscriber) = [nightly_build]
  ∧ job_Labels (per_JobBase nightly_build) = Some 0
  ∧ w_heap example_world !! 0 = Some {[ "team" := "infra" ]}
  ∧ w_heap out.2 !! 0 = Some ({[ "run" := "42" ]} ∪ {[ "team" := "infra" ]})
  ∧ (w_heap example_world !!! 0 : gmap string string) !! "run" = None
  ∧ (w_heap out.2 !!! 0 : gmap string string) !! "run" = Some "42"
  ∧ (contents <$> (pj_Labels <$> last (created (w_trace next.2))))
    = Some ({[ "run" := "42" ]} ∪ {[ "team" := "infra" ]}).
Proof. vm_compute. done. Qed.

(** * Further properties of the subscriber *)

(** ** The periodic resolver *)

Lemma periodic_find_first (name : string) (before after : list Periodic) (job : Periodic) :
  job_Name (per_JobBase job) = name →
  Forall (λ j, job_Name (per_JobBase j) ≠ name) before →
  periodic.find name (before ++ job :: after) = Some job.
Proof.
  intros Hname Hbefore. induction Hbefore as [|j rest Hj _ IH]; simpl.
  - apply String.eqb_eq in Hname. by rewrite Hname.
  - apply String.eqb_neq in Hj. by rewrite Hj.
Qed.

Lemma periodic_find_none (name : string) (jobs : list Periodic) :
  Forall (λ j, job_Name (per_JobBase j) ≠ name) jobs → periodic.find name jobs = None.
Proof.
  intros Hjobs. induction Hjobs as [|j rest Hj _ IH]; simpl; [done|].
  apply String.eqb_neq in Hj. by rewrite Hj.
Qed.

(** X1. The periodic resolver takes the first entry of [AllPeriodics] that
    has the name of the event, with the labels of that entry: entries of
    the same name further down are not looked at and raise no error. When
    no entry has the name, it fails with "failed to find associated
    periodic job" and the quoted name. Refs and the inrepoconfig cache play
    no part. *)
Theorem periodic_first_entry_wins `{GoRuntime} `{Pjutil} (cfg : prowCfgClient)
    (pc : option InRepoConfigCache) (pe : ProwJobEvent) :
  (∀ before job after,
     AllPeriodics cfg = before ++ job :: after →
     job_Name (per_JobBase job) = pe_Name pe →
     Forall (λ j, job_Name (per_JobBase j) ≠ pe_Name pe) before →
     periodic.getProwJobSpec cfg pc pe
     = Ok (PeriodicSpec job, job_Labels (per_JobBase job)))
  ∧ (Forall (λ j, job_Name (per_JobBase j) ≠ pe_Name pe) (AllPeriodics cfg) →
     periodic.getProwJobSpec cfg pc pe
     = Err ("failed to find associated periodic job " +:+ Quote (pe_Name pe))).
Proof.
  unfold periodic.getProwJobSpec. split.
  - intros before job after -> Hname Hbefore.
    by rewrite (periodic_find_first _ _ _ _ Hname Hbefore).
  - intros Hnone. by rewrite (periodic_find_none _ _ Hnone).
Qed.

Lemma periodic_first_entry_wins_witness :
  periodic.getProwJobSpec (H := exampleRuntime) (H0 := examplePjutil) duplicate_config
    (Some example_cache) unit_tests_event
  = Err ("failed to find associated periodic job " +:+ dquote +:+ "unit-tests" +:+ dquote)
  ∧ periodic.getProwJobSpec (H := exampleRuntime) (H0 := examplePjutil) duplicate_config
      None nightly_event
    = Ok (mkSpec "nightly-build" "build" None None, Some 0).
Proof.
  split.
  - apply (proj2 (@periodic_first_entry_wins exampleRuntime examplePjutil duplicate_config
                    (Some example_cache) unit_tests_event)).
    repeat constructor; simpl; discriminate.
  - apply (proj1 (@periodic_first_entry_wins exampleRuntime examplePjutil duplicate_config
                    None nightly_event) [] nightly_build [nightly_build_other]).
    + reflexivity.
    + reflexivity.
    + constructor.
Defined.

(** ** Order of the catalog *)

Lemma presubmit_matches_Permutation (jobs jobs' : list Presubmit) (branch name : string) :
  jobs ≡ₚ jobs' → presubmit_matches jobs branch name ≡ₚ presubmit_matches jobs' branch name.
Proof. intros Hperm. unfold presubmit_matches. by rewrite Hperm. Qed.

Lemma presubmit_loop_Permutation (name branch : string) (jobs jobs' : list Presubmit) :
  jobs ≡ₚ jobs' →
  presubmit.loop name branch jobs None = presubmit.loop name branch jobs' None.
Proof.
  intros Hperm. rewrite !presubmit_loop_matches.
  pose proof (presubmit_matches_Permutation _ _ branch name Hperm) as Hm.
  destruct (presubmit_matches jobs branch name) as [|job [|job2 more]].
  - apply Permutation_nil_l in Hm. by rewrite <- Hm.
  - apply Permutation_singleton_l in Hm. by rewrite <- Hm.
  - pose proof (Permutation_length Hm) as Hlen.
    by destruct (presubmit_matches jobs' branch name) as [|? [|? ?]].
Qed.

(** X2. The presubmit resolver does not depend on the order of the
    catalog: two configurations whose static presubmits are the same
    entries in another order give the same result for every event, be it
    the one match, the ambiguity error or the not-found error. *)
Theorem presubmit_order_independent `{GoRuntime} `{Pjutil} (cfg cfg' : prowCfgClient)
    (pe : ProwJobEvent) :
  (∀ orgRepo, GetPresubmitsStatic cfg orgRepo ≡ₚ GetPresubmitsStatic cfg' orgRepo) →
  presubmit.getProwJobSpec cfg None pe = presubmit.getProwJobSpec cfg' None pe.
Proof.
  intros Hperm. unfold presubmit.getProwJobSpec.
  destruct (pe_Refs pe) as [refs|]; [|done].
  repeat (case_match; [done|]).
  unfold presubmit.presubmits.
  by rewrite (presubmit_loop_Permutation _ _ _ _ (Hperm _)).
Qed.

Lemma presubmit_order_independent_witness :
  presubmit.getProwJobSpec (H := exampleRuntime) (H0 := examplePjutil) twin_config None
    unit_tests_event
  = presubmit.getProwJobSpec (H := exampleRuntime) (H0 := examplePjutil)
      reversed_twin_config None unit_tests_event.
Proof.
  apply (@presubmit_order_independent exampleRuntime examplePjutil twin_config
           reversed_twin_config unit_tests_event).
  intros orgRepo. simpl. apply Permutation_swap.
Defined.

(** X3. With complete refs, at least one pull and exactly one entry that
    matches by branch and name, the presubmit resolver returns the spec
    that [pjutil.PresubmitSpec] builds from that entry and the refs of the
    event, with the labels of the entry; entries of the same name whose
    branch predicate rejects the baseRef do not count. *)
Theorem presubmit_unique_match `{GoRuntime} `{Pjutil} (cfg : prowCfgClient)
    (pc : option InRepoConfigCache) (pe : ProwJobEvent) (refs : Refs) (job : Presubmit) :
  pe_Refs pe = Some refs → refs_complete refs → refs_Pulls refs ≠ [] →
  presubmit_matches (presubmit.presubmits cfg pc refs) (refs_BaseRef refs) (pe_Name pe)
    = [job] →
  presubmit.getProwJobSpec cfg pc pe
    = Ok (PresubmitSpec job refs, job_Labels (pre_JobBase job))
  ∧ job ∈ presubmit.presubmits cfg pc refs
  ∧ pre_CouldRun job (refs_BaseRef refs) = true
  ∧ job_Name (pre_JobBase job) = pe_Name pe.
Proof.
  intros Hrefs Hcomplete Hpulls Hmatch.
  rewrite (presubmit_resolve_complete cfg pc pe refs Hrefs Hcomplete Hpulls), Hmatch.
  split; [done|].
  assert (job ∈ presubmit_matches (presubmit.presubmits cfg pc refs) (refs_BaseRef refs)
                  (pe_Name pe)) as Hin by (rewrite Hmatch; set_solver).
  unfold presubmit_matches in Hin. apply list_elem_of_filter in Hin as [[Hrun Hname] Hin].
  done.
Qed.

Lemma presubmit_unique_match_witness :
  presubmit.getProwJobSpec (H := exampleRuntime) (H0 := examplePjutil) example_config None
    unit_tests_event
  = Ok (mkSpec "unit-tests" "ci" (Some unit_tests_refs) (Some example_pod), None).
Proof.
  refine (proj1 (@presubmit_unique_match exampleRuntime examplePjutil example_config None
                   unit_tests_event unit_tests_refs unit_tests _ _ _ _)).
  - reflexivity.
  - unfold refs_complete. simpl. intuition discriminate.
  - simpl. discriminate.
  - vm_compute. reflexivity.
Defined.

(** ** The postsubmit resolver *)

Lemma postsubmit_first_unmet `{GoRuntime} `{Pjutil} (cfg : prowCfgClient)
    (pc : option InRepoConfigCache) (pe : ProwJobEvent) (err : error) :
  head (postsubmit_unmet pe) = Some err →
  postsubmit.getProwJobSpec cfg pc pe = Err err.
Proof.
  unfold postsubmit_unmet, postsubmit.getProwJobSpec.
  destruct (pe_Refs pe) as [refs|]; [|by intros [= <-]].
  rewrite !is_empty_decide.
  repeat case_bool_decide; simpl; by intros [= <-].
Qed.

(** X4. A postsubmit event without refs, or whose refs have an empty org,
    repo, baseSHA or baseRef, fails in the postsubmit resolver with the
    error of the first unmet precondition in that order, and handling it
    returns that error with nothing handed to the job client. Conversely,
    an event that the resolver refuses with none of these errors has met
    all of them. *)
Theorem postsubmit_validation `{GoRuntime} `{Pjutil} (s : Subscriber) (msg : Message)
    (subscription : string) (allowedClusters : list string) (w : World)
    (pe : ProwJobEvent) :
  FromPayload zeroEvent (msg_Data msg) = Ok pe →
  (∀ err, head (postsubmit_unmet pe) = Some err →
     resolution_fails s postsubmitJobHandler msg subscription allowedClusters w pe err)
  ∧ (postsubmit_unmet pe = [] → ∃ refs, pe_Refs pe = Some refs ∧ refs_complete refs).
Proof.
  intros Hdec. split.
  - intros err Hunmet. apply resolution_fails_intro; [done|].
    by apply postsubmit_first_unmet.
  - unfold postsubmit_unmet, refs_complete. destruct (pe_Refs pe) as [refs|]; [|done].
    repeat case_bool_decide; simpl; try done. intros _. by exists refs.
Qed.

Lemma postsubmit_validation_witness :
  resolution_fails (H := exampleRuntime) (H0 := examplePjutil) example_subscriber
    postsubmitJobHandler no_refs_message "sub" ["*"] example_world no_refs_event
    "refs must be supplied".
Proof.
  refine (proj1 (@postsubmit_validation exampleRuntime examplePjutil example_subscriber
                   no_refs_message "sub" ["*"] example_world no_refs_event _)
            "refs must be supplied" _).
  - vm_compute. reflexivity.
  - reflexivity.
Defined.

(** X5. With an inrepoconfig cache configured, a successful lookup of the
    postsubmits replaces the static list, so that the postsubmit resolver
    no longer depends on the static configuration; a failed lookup leaves
    the static list in place and the resolver returns what it returns
    without a cache. The lookup is made for the repository and the base SHA
    of the event. *)
Theorem dynamic_postsubmits `{GoRuntime} `{Pjutil} (cfg : prowCfgClient)
    (pc : InRepoConfigCache) (pe : ProwJobEvent) (refs : Refs) :
  pe_Refs pe = Some refs →
  let orgRepo := refs_Org refs +:+ "/" +:+ refs_Repo refs in
  let lookup := GetPostsubmits pc orgRepo (refs_BaseSHA refs) in
  (∀ found, lookup = Ok found →
     postsubmit.postsubmits cfg (Some pc) refs = found
     ∧ ∀ cfg', postsubmit.getProwJobSpec cfg' (Some pc) pe
               = postsubmit.getProwJobSpec cfg (Some pc) pe)
  ∧ (∀ err, lookup = Err err →
       postsubmit.postsubmits cfg (Some pc) refs = GetPostsubmitsStatic cfg orgRepo
       ∧ postsubmit.getProwJobSpec cfg (Some pc) pe = postsubmit.getProwJobSpec cfg None pe).
Proof.
  intros Hrefs orgRepo lookup. split.
  - intros found Hfound.
    assert (∀ c, postsubmit.postsubmits c (Some pc) refs = found) as Hlist.
    { intros c. unfold postsubmit.postsubmits. fold orgRepo lookup. by rewrite Hfound. }
    split; [apply Hlist|]. intros cfg'.
    unfold postsubmit.getProwJobSpec. rewrite Hrefs. by rewrite !Hlist.
  - intros err Herr.
    assert (postsubmit.postsubmits cfg (Some pc) refs = postsubmit.postsubmits cfg None refs)
      as Hlist.
    { unfold postsubmit.postsubmits. fold orgRepo lookup. by rewrite Herr. }
    split; [by rewrite Hlist|].
    unfold postsubmit.getProwJobSpec. rewrite Hrefs. by rewrite Hlist.
Qed.

Lemma dynamic_postsubmits_witness :
  postsubmit.postsubmits publish_config (Some publish_cache) push_refs = [].
Proof.
  refine (proj1 (proj1 (@dynamic_postsubmits exampleRuntime examplePjutil publish_config
            publish_cache push_event push_refs _) [] _)).
  - reflexivity.
  - reflexivity.
Defined.

(** X6. Pulls are required of a presubmit event and not of a postsubmit
    event: with complete refs and an empty pulls list the presubmit
    resolver fails with "at least 1 Pulls is required", whereas the
    postsubmit resolver goes on to the catalog and returns the spec of the
    entry that matches, built from the refs of the event. *)
Theorem pulls_required_of_presubmits_only `{GoRuntime} `{Pjutil} (cfg : prowCfgClient)
    (pc : option InRepoConfigCache) (pe : ProwJobEvent) (refs : Refs) :
  pe_Refs pe = Some refs → refs_complete refs → refs_Pulls refs = [] →
  presubmit.getProwJobSpec cfg pc pe = Err "at least 1 Pulls is required"
  ∧ ∀ job,
      postsubmit_matches (postsubmit.postsubmits cfg pc refs) (refs_BaseRef refs)
        (pe_Name pe) = [job] →
      postsubmit.getProwJobSpec cfg pc pe
      = Ok (PostsubmitSpec job refs, job_Labels (post_JobBase job)).
Proof.
  intros Hrefs Hcomplete Hpulls. split.
  - destruct Hcomplete as (Horg & Hrepo & _). unfold presubmit.getProwJobSpec.
    rewrite Hrefs, (is_empty_false _ Horg), (is_empty_false _ Hrepo). by rewrite Hpulls.
  - intros job Hmatch.
    by rewrite (postsubmit_resolve_complete cfg pc pe refs Hrefs Hcomplete), Hmatch.
Qed.

Lemma pulls_required_of_presubmits_only_witness :
  presubmit.getProwJobSpec (H := exampleRuntime) (H0 := examplePjutil) publish_config None
    push_event = Err "at least 1 Pulls is required"
  ∧ postsubmit.getProwJobSpec (H := exampleRuntime) (H0 := examplePjutil) publish_config
      None push_event
    = Ok (mkSpec "publish" "ci" (Some push_refs) None, None).
Proof.
  destruct (@pulls_required_of_presubmits_only exampleRuntime examplePjutil publish_config
              None push_event push_refs) as [Hpre Hpost].
  - reflexivity.
  - unfold refs_complete. simpl. intuition discriminate.
  - reflexivity.
  - split; [exact Hpre|]. apply (Hpost publish). vm_compute. reflexivity.
Defined.

(** ** Outcomes of the dispatcher *)

Lemma handleMessage_class `{GoRuntime} `{Pjutil} (s : Subscriber) (msg : Message)
    (subscription : string) (allowedClusters : list string) (w : World) (jh : jobHandler) :
  msg_Attributes msg !! prowEventType
  = Some match jh with
         | periodicJobHandler => periodicProwJobEvent
         | presubmitJobHandler => presubmitProwJobEvent
         | postsubmitJobHandler => postsubmitProwJobEvent
         end →
  handleMessage s msg subscription allowedClusters w
  = handleWith s jh msg subscription allowedClusters
      (mkWorld
         (mkMetrics (Inc subscription (With subscription (MessageCounter (w_Metrics w))))
                    (ErrorCounter (w_Metrics w)))
         (w_heap w) (w_trace w)).
Proof. intros Hclass. rewrite handleMessage_run, Hclass. by destruct jh. Qed.

(** X7. A message of one of the three classes whose payload does not
    decode ends with the error of the decoder: no resolver runs, the
    reporter is not asked, nothing is handed to the job client and the label
    maps stay as they are; the message is counted. *)
Theorem undecodable_payload `{GoRuntime} `{Pjutil} (s : Subscriber) (msg : Message)
    (subscription : string) (allowedClusters : list string) (w : World)
    (jh : jobHandler) (err : error) :
  msg_Attributes msg !! prowEventType
  = Some match jh with
         | periodicJobHandler => periodicProwJobEvent
         | presubmitJobHandler => presubmitProwJobEvent
         | postsubmitJobHandler => postsubmitProwJobEvent
         end →
  FromPayload zeroEvent (msg_Data msg) = Err err →
  handleMessage s msg subscription allowedClusters w
  = (Some err,
     counted_error_world subscription w (w_heap w)
       (w_trace w ++ [EvFromPayload (msg_Data msg)])).
Proof.
  intros Hclass Hdec. rewrite (handleMessage_class _ _ _ _ _ jh Hclass), handleWith_run.
  by rewrite (handleProwJob_decode_error _ _ _ _ _ _ _ Hdec).
Qed.

Lemma undecodable_payload_witness :
  example_handleMessage example_subscriber undecodable_message "sub" ["*"] example_world
  = (Some "invalid character looking for beginning of value",
     counted_error_world "sub" example_world (w_heap example_world)
       [EvFromPayload (msg_Data undecodable_message)]).
Proof.
  apply (@undecodable_payload exampleRuntime examplePjutil example_subscriber
           undecodable_message "sub" ["*"] example_world presubmitJobHandler).
  - reflexivity.
  - vm_compute. reflexivity.
Defined.

Lemma withEnvs_annotations `{GoRuntime} (envs : gomap) (pj : ProwJob) :
  pj_Annotations (withEnvs envs pj) = pj_Annotations pj.
Proof. unfold withEnvs. by destruct (spec_PodSpec (pj_Spec pj)). Qed.

(** X8. For a payload that decodes, the reporter is asked about exactly
    one job, which carries the annotations of the event, and its status
    tells the outcome: triggered, with "Successfully triggered prowjob.",
    exactly when [handleProwJob] returns no error, and otherwise the error
    state with "Failed creating prowjob: " followed by the very error that
    is returned. *)
Theorem report_matches_outcome `{GoRuntime} `{Pjutil} (s : Subscriber) (jh : jobHandler)
    (msg : Message) (subscription : string) (allowedClusters : list string) (w : World)
    (pe : ProwJobEvent) :
  FromPayload zeroEvent (msg_Data msg) = Ok pe →
  let out := handleProwJob s jh msg subscription allowedClusters w in
  ∃ pj,
    reported (w_trace out.2) = reported (w_trace w) ++ [pj]
    ∧ pj_Annotations pj = pe_Annotations pe
    ∧ pj_Status pj
      = match out.1 with
        | None => mkStatus TriggeredState "Successfully triggered prowjob."
        | Some err => mkStatus ErrorState ("Failed creating prowjob: " +:+ err)
        end.
Proof.
  intros Hdec out. subst out.
  destruct (getProwJobSpec jh (s_Config s) (s_InRepoConfigCache s) (normalizeName pe))
    as [[spec labels]|err] eqn:Hres.
  - destruct (clusterIsAllowed allowedClusters (spec_Cluster spec)) eqn:Hcl.
    + rewrite (handleProwJob_allowed _ _ _ _ _ _ _ _ _ Hdec Hres Hcl). cbn [fst snd w_trace].
      eexists. rewrite !reported_app, reported_report_calls. split; [done|].
      destruct (ProwJobClient_Create s _); unfold failed, triggered, submitted;
        cbn [pj_Annotations pj_Status fst]; by rewrite withEnvs_annotations.
    + rewrite (handleProwJob_refused _ _ _ _ _ _ _ _ _ Hdec Hres Hcl). cbn [fst snd w_trace].
      eexists. rewrite !reported_app, reported_report_calls. by split.
  - rewrite (handleProwJob_resolver_error _ _ _ _ _ _ _ _ Hdec Hres). cbn [fst snd w_trace].
    eexists. rewrite !reported_app, reported_report_calls. by split.
Qed.

Lemma report_matches_outcome_witness :
  ∃ pj,
    reported (w_trace (example_handleProwJob example_subscriber presubmitJobHandler
                         unit_tests_message "sub" ["ci"] example_world).2) = [] ++ [pj]
    ∧ pj_Annotations pj = None
    ∧ pj_Status pj = mkStatus TriggeredState "Successfully triggered prowjob.".
Proof.
  apply (@report_matches_outcome exampleRuntime examplePjutil example_subscriber
           presubmitJobHandler unit_tests_message "sub" ["ci"] example_world
           unit_tests_event).
  vm_compute. reflexivity.
Defined.

(** X9. Handling a message calls the job client at most once. When it is
    not called, an error is returned; when it is called, what
    [handleProwJob] returns is what the job client returned for that job:
    no error is returned for a job that failed to be created, and none is
    made up for one that was created. *)
Theorem create_at_most_once `{GoRuntime} `{Pjutil} (s : Subscriber) (jh : jobHandler)
    (msg : Message) (subscription : string) (allowedClusters : list string) (w : World) :
  let out := handleProwJob s jh msg subscription allowedClusters w in
  (created (w_trace out.2) = created (w_trace w) ∧ is_Some out.1)
  ∨ (∃ pj, created (w_trace out.2) = created (w_trace w) ++ [pj]
           ∧ out.1 = ProwJobClient_Create s pj).
Proof.
  intros out. subst out.
  destruct (FromPayload zeroEvent (msg_Data msg)) as [pe|err] eqn:Hdec.
  - destruct (getProwJobSpec jh (s_Config s) (s_InRepoConfigCache s) (normalizeName pe))
      as [[spec labels]|err] eqn:Hres.
    + destruct (clusterIsAllowed allowedClusters (spec_Cluster spec)) eqn:Hcl.
      * right. exists (submitted w pe spec labels).
        split; [by apply created_after_allowed|].
        by rewrite (handleProwJob_allowed _ _ _ _ _ _ _ _ _ Hdec Hres Hcl).
      * left. rewrite (handleProwJob_refused _ _ _ _ _ _ _ _ _ Hdec Hres Hcl).
        cbn [fst snd w_trace]. rewrite !created_app, created_report_calls. simpl.
        by rewrite app_nil_r.
    + left. rewrite (handleProwJob_resolver_error _ _ _ _ _ _ _ _ Hdec Hres).
      cbn [fst snd w_trace]. rewrite !created_app, created_report_calls. simpl.
      by rewrite app_nil_r.
  - left. rewrite (handleProwJob_decode_error _ _ _ _ _ _ _ Hdec). cbn [fst snd w_trace].
    rewrite created_app. simpl. by rewrite app_nil_r.
Qed.

(** ** The label maps *)

Lemma resolved_labels_eq `{GoRuntime} `{Pjutil} (s : Subscriber) (jh : jobHandler)
    (msg : Message) (pe : ProwJobEvent) (spec : ProwJobSpec) (labels : option loc) :
  FromPayload zeroEvent (msg_Data msg) = Ok pe →
  getProwJobSpec jh (s_Config s) (s_InRepoConfigCache s) (normalizeName pe)
    = Ok (spec, labels) →
  resolved_labels s jh msg = labels.
Proof. intros Hdec Hres. unfold resolved_labels. by rewrite Hdec, Hres. Qed.

Lemma handleProwJob_heap_cases `{GoRuntime} `{Pjutil} (s : Subscriber) (jh : jobHandler)
    (msg : Message) (subscription : string) (allowedClusters : list string) (w : World) :
  let out := handleProwJob s jh msg subscription allowedClusters w in
  (w_heap out.2 = w_heap w ∧ created (w_trace out.2) = created (w_trace w))
  ∨ (∃ pe spec labels,
       FromPayload zeroEvent (msg_Data msg) = Ok pe
       ∧ resolved_labels s jh msg = labels
       ∧ w_heap out.2 = w_heap (mergeLabels labels (pe_Labels pe) w).2
       ∧ created (w_trace out.2) = created (w_trace w) ++ [submitted w pe spec labels]).
Proof.
  intros out. subst out.
  destruct (FromPayload zeroEvent (msg_Data msg)) as [pe|err] eqn:Hdec.
  - destruct (getProwJobSpec jh (s_Config s) (s_InRepoConfigCache s) (normalizeName pe))
      as [[spec labels]|err] eqn:Hres.
    + destruct (clusterIsAllowed allowedClusters (spec_Cluster spec)) eqn:Hcl.
      * right. exists pe, spec, labels. split; [done|].
        split; [by apply (resolved_labels_eq s jh msg pe spec labels)|].
        split; [|by apply created_after_allowed].
        by rewrite (handleProwJob_allowed _ _ _ _ _ _ _ _ _ Hdec Hres Hcl).
      * left. rewrite (handleProwJob_refused _ _ _ _ _ _ _ _ _ Hdec Hres Hcl).
        cbn [fst snd w_trace w_heap]. rewrite !created_app, created_report_calls. simpl.
        by rewrite app_nil_r.
    + left. rewrite (handleProwJob_resolver_error _ _ _ _ _ _ _ _ Hdec Hres).
      cbn [fst snd w_trace w_heap]. rewrite !created_app, created_report_calls. simpl.
      by rewrite app_nil_r.
  - left. rewrite (handleProwJob_decode_error _ _ _ _ _ _ _ Hdec).
    cbn [fst snd w_trace w_heap]. rewrite created_app. simpl. by rewrite app_nil_r.
Qed.

(** X10. Handling a message writes to no label map but the one that the
    resolver returned for it. The label maps are left as they are whenever
    nothing is handed to the job client, and also when the event carries
    no labels. *)
Theorem label_maps_frame `{GoRuntime} `{Pjutil} (s : Subscriber) (jh : jobHandler)
    (msg : Message) (subscription : string) (allowedClusters : list string) (w : World) :
  let out := handleProwJob s jh msg subscription allowedClusters w in
  (∀ l, resolved_labels s jh msg ≠ Some l → w_heap out.2 !! l = w_heap w !! l)
  ∧ (created (w_trace out.2) = created (w_trace w) → w_heap out.2 = w_heap w)
  ∧ (range_visits_each_entry_once →
     (∀ pe, FromPayload zeroEvent (msg_Data msg) = Ok pe → contents (pe_Labels pe) = ∅) →
     (∀ l, resolved_labels s jh msg = Some l → is_Some (w_heap w !! l)) →
     w_heap out.2 = w_heap w).
Proof.
  intros out.
  destruct (handleProwJob_heap_cases s jh msg subscription allowedClusters w)
    as [[Hheap Hcreated]|(pe & spec & labels & Hdec & Hlabels & Hheap & Hcreated)];
    fold out in Hheap, Hcreated.
  - split; [intros l _; by rewrite Hheap|]. by split.
  - split; [|split].
    + intros l Hl. rewrite Hheap. unfold mergeLabels.
      destruct labels as [l'|]; simpl; [|done].
      apply lookup_insert_ne. intros ->. by apply Hl.
    + intros Hsame. rewrite Hsame in Hcreated.
      apply (f_equal length) in Hcreated. rewrite length_app in Hcreated. simpl in Hcreated.
      lia.
    + intros Hrange Hnone Halloc. rewrite Hheap. unfold mergeLabels.
      destruct labels as [l|]; simpl; [|done].
      pose proof (Hrange 0 (contents (pe_Labels pe))) as Hperm.
      rewrite (Hnone pe Hdec), map_to_list_empty in Hperm.
      apply Permutation_nil_r in Hperm. rewrite (Hnone pe Hdec), Hperm. simpl.
      destruct (Halloc l Hlabels) as [m Hm]. apply insert_id.
      by rewrite (lookup_total_correct _ _ _ Hm).
Qed.

Lemma label_maps_frame_witness :
  w_heap (example_handleProwJob example_subscriber periodicJobHandler plain_nightly_message
            "sub" ["*"] example_world).2 = w_heap example_world.
Proof.
  apply (@label_maps_frame exampleRuntime examplePjutil example_subscriber
           periodicJobHandler plain_nightly_message "sub" ["*"] example_world).
  - exact example_range_visits_each_entry_once.
  - intros pe. vm_compute. by intros [= <-].
  - intros l. vm_compute. intros [= <-]. by eexists.
Defined.

Lemma merged_twice `{GoRuntime} (labels : option loc) (event : gomap) (w : World) :
  range_visits_each_entry_once →
  let w1 := (mergeLabels labels event w).2 in
  (mergeLabels labels event w1).1 = (mergeLabels labels event w).1
  ∧ w_heap (mergeLabels labels event w1).2 = w_heap w1.
Proof.
  intros Hrange w1. subst w1. unfold mergeLabels. destruct labels as [l|]; simpl; [|done].
  rewrite lookup_total_insert_eq, !(assign_all_union _ _ _ (Hrange 0 _)).
  rewrite (assoc_L (∪)), (idemp_L (∪)). split; [done|]. by rewrite insert_insert_eq.
Qed.

(** X11. Nothing keeps a message from being handled again: handling the
    same message a second time hands a second job to the job client. The
    second job has the labels of the first, and the second merge leaves
    the label maps as the first one left them. *)
Theorem replay_submits_again `{GoRuntime} `{Pjutil} (s : Subscriber) (jh : jobHandler)
    (msg : Message) (subscription : string) (allowedClusters : list string) (w : World)
    (pe : ProwJobEvent) (spec : ProwJobSpec) (labels : option loc) :
  range_visits_each_entry_once →
  FromPayload zeroEvent (msg_Data msg) = Ok pe →
  getProwJobSpec jh (s_Config s) (s_InRepoConfigCache s) (normalizeName pe)
    = Ok (spec, labels) →
  clusterIsAllowed allowedClusters (spec_Cluster spec) = true →
  let first := handleProwJob s jh msg subscription allowedClusters w in
  let second := handleProwJob s jh msg subscription allowedClusters first.2 in
  ∃ pj1 pj2,
    created (w_trace second.2) = created (w_trace w) ++ [pj1; pj2]
    ∧ pj_Labels pj2 = pj_Labels pj1
    ∧ w_heap second.2 = w_heap first.2.
Proof.
  intros Hrange Hdec Hres Hcl first second.
  exists (submitted w pe spec labels), (submitted first.2 pe spec labels).
  assert (w_heap first.2 = w_heap (mergeLabels labels (pe_Labels pe) w).2) as Hheap1.
  { subst first. by rewrite (handleProwJob_allowed _ _ _ _ _ _ _ _ _ Hdec Hres Hcl). }
  assert (∀ w1 w2, w_heap w1 = w_heap w2 →
            (mergeLabels labels (pe_Labels pe) w1).1
              = (mergeLabels labels (pe_Labels pe) w2).1
            ∧ w_heap (mergeLabels labels (pe_Labels pe) w1).2
              = w_heap (mergeLabels labels (pe_Labels pe) w2).2) as Hsame.
  { intros w1 w2 Heq. unfold mergeLabels. destruct labels; simpl; by rewrite ?Heq. }
  destruct (merged_twice labels (pe_Labels pe) w Hrange) as [Hm1 Hm2].
  destruct (Hsame _ _ Hheap1) as [Hs1 Hs2].
  split; [|split].
  - subst second. rewrite (created_after_allowed _ _ _ _ _ _ _ _ _ Hdec Hres Hcl).
    subst first. rewrite (created_after_allowed _ _ _ _ _ _ _ _ _ Hdec Hres Hcl).
    by rewrite <- app_assoc.
  - unfold submitted. rewrite !withEnvs_labels. simpl. f_equal. by rewrite Hs1, Hm1.
  - subst second. rewrite (handleProwJob_allowed _ _ _ _ _ _ _ _ _ Hdec Hres Hcl).
    cbn [snd w_heap]. by rewrite Hs2, Hm2, Hheap1.
Qed.

Lemma replay_submits_again_witness :
  let first := example_handleProwJob example_subscriber periodicJobHandler nightly_message
                 "sub" ["*"] example_world in
  let second := example_handleProwJob example_subscriber periodicJobHandler nightly_message
                  "sub" ["*"] first.2 in
  ∃ pj1 pj2,
    created (w_trace second.2) = [] ++ [pj1; pj2]
    ∧ pj_Labels pj2 = pj_Labels pj1
    ∧ w_heap second.2 = w_heap first.2.
Proof.
  apply (@replay_submits_again exampleRuntime examplePjutil example_subscriber
           periodicJobHandler nightly_message "sub" ["*"] example_world
           nightly_event (PeriodicSpec (Pjutil := examplePjutil) nightly_build) (Some 0)).
  - exact example_range_visits_each_entry_once.
  - vm_compute. reflexivity.
  - vm_compute. reflexivity.
  - reflexivity.
Defined.

(** ** Publishing and handling *)

Lemma periodic_by_name `{GoRuntime} `{Pjutil} (cfg : prowCfgClient)
    (pc pc' : option InRepoConfigCache) (pe pe' : ProwJobEvent) :
  pe_Name pe' = pe_Name pe →
  periodic.getProwJobSpec cfg pc' pe' = periodic.getProwJobSpec cfg pc pe.
Proof. intros Hname. unfold periodic.getProwJobSpec. by rewrite Hname. Qed.

(** The message that [ToMessage] makes carries the periodic class, and
    its payload decodes to an event with the name and the annotations of
    the one that was published. *)
Lemma published_payload_decodes `{GoRuntime} (pe : ProwJobEvent) :
  reads_back (event_toJSON pe) →
  tags_select_their_fields →
  refs_read_back pe →
  ∃ pe',
    ToMessage pe
      = Ok (mkMessage "" (json_render (event_toJSON pe))
              {[ prowEventType := periodicProwJobEvent ]})
    ∧ FromPayload zeroEvent (json_render (event_toJSON pe)) = Ok pe'
    ∧ pe_Name pe' = pe_Name pe
    ∧ contents (pe_Annotations pe') = contents (pe_Annotations pe).
Proof.
  intros Htext Hkeys Hrefs. unfold ToMessage, json_Marshal, FromPayload, json_Unmarshal.
  unfold reads_back in Htext. rewrite Htext. clear Htext.
  unfold event_toJSON, event_fromJSON.
  destruct pe as [name refs envs labels annotations]. unfold refs_read_back in Hrefs.
  cbn [pe_Name pe_Refs pe_Envs pe_Labels pe_Annotations] in *.
  destruct refs as [refs|];
    destruct (gomap_empty envs) eqn:Henvs;
    destruct (gomap_empty labels) eqn:Hlabels;
    destruct (gomap_empty annotations) eqn:Hann;
    cbn [app decode_members];
    rewrite decode_member_name by done;
    rewrite ?(decode_member_refs Hkeys refs) by (done || by apply Hrefs);
    rewrite ?decode_member_envs by done;
    rewrite ?decode_member_labels by done;
    rewrite ?decode_member_annotations by done;
    cbn [pe_Name pe_Refs pe_Envs pe_Labels pe_Annotations zeroEvent];
    eexists; (repeat split); by (reflexivity || apply contents_unpopulated).
Qed.

(** X12. A message made by [ToMessage] is handled as a periodic event,
    whatever the event holds: the event is matched by its trimmed name
    against the periodics alone, also when it carries refs. When no
    periodic has the name, the resolver's error is returned and nothing is
    handed to the job client; when one has it and its cluster is allowed,
    one job is handed over, for that cluster and with the annotations of
    the event, and the job client's answer is returned. The JSON text is
    taken to read back as written, as in the round trip. *)
Theorem publish_then_handle `{GoRuntime} `{Pjutil} (s : Subscriber) (pe : ProwJobEvent)
    (subscription : string) (allowedClusters : list string) (w : World) :
  reads_back (event_toJSON pe) →
  tags_select_their_fields →
  refs_read_back pe →
  ∃ message,
    ToMessage pe = Ok message
    ∧ let out := handleMessage s message subscription allowedClusters w in
      let resolved :=
        periodic.getProwJobSpec (s_Config s) (s_InRepoConfigCache s) (normalizeName pe) in
      (∀ err, resolved = Err err →
         out.1 = Some err ∧ created (w_trace out.2) = created (w_trace w))
      ∧ (∀ spec labels, resolved = Ok (spec, labels) →
           clusterIsAllowed allowedClusters (spec_Cluster spec) = true →
           ∃ pj, created (w_trace out.2) = created (w_trace w) ++ [pj]
                 ∧ spec_Cluster (pj_Spec pj) = spec_Cluster spec
                 ∧ contents (pj_Annotations pj) = contents (pe_Annotations pe)
                 ∧ out.1 = ProwJobClient_Create s pj).
Proof.
  intros Htext Hkeys Hrefs.
  destruct (published_payload_decodes pe Htext Hkeys Hrefs)
    as (pe' & Hmsg & Hdec & Hname & Hann).
  set (message := mkMessage "" (json_render (event_toJSON pe))
                    {[ prowEventType := periodicProwJobEvent ]}) in *.
  assert (msg_Attributes message = {[ prowEventType := periodicProwJobEvent ]}) as Hattrs
    by done.
  change (FromPayload zeroEvent (msg_Data message) = Ok pe') in Hdec.
  exists message. split; [done|]. intros out resolved.
  assert (getProwJobSpec periodicJobHandler (s_Config s) (s_InRepoConfigCache s)
            (normalizeName pe') = resolved) as Hres.
  { apply periodic_by_name. simpl. by rewrite Hname. }
  assert (out = handleWith s periodicJobHandler message subscription allowedClusters
                  (mkWorld
                     (mkMetrics
                        (Inc subscription (With subscription (MessageCounter (w_Metrics w))))
                        (ErrorCounter (w_Metrics w)))
                     (w_heap w) (w_trace w))) as Hout.
  { subst out. apply (handleMessage_class _ _ _ _ _ periodicJobHandler).
    rewrite Hattrs. apply lookup_singleton_eq. }
  rewrite handleWith_run in Hout. split.
  - intros err Herr. rewrite Herr in Hres.
    rewrite (handleProwJob_resolver_error _ _ _ _ _ _ _ _ Hdec Hres) in Hout.
    rewrite Hout. cbn [fst snd w_trace]. split; [done|].
    rewrite !created_app, created_report_calls. simpl. by rewrite app_nil_r.
  - intros spec labels Hok Hcl. rewrite Hok in Hres.
    rewrite (handleProwJob_allowed _ _ _ _ _ _ _ _ _ Hdec Hres Hcl) in Hout.
    cbn [fst snd] in Hout. eexists. rewrite Hout. split; [|split; [|split]].
    + destruct (ProwJobClient_Create s _); cbn [fst snd w_trace];
        rewrite !created_app, created_report_calls; by simpl.
    + unfold submitted. by rewrite withEnvs_cluster.
    + unfold submitted. rewrite withEnvs_annotations. by simpl.
    + done.
Qed.

Lemma publish_then_handle_witness :
  ∃ message,
    ToMessage (H := exampleRuntime) unit_tests_event = Ok message
    ∧ (example_handleMessage example_subscriber message "sub" ["*"] example_world).1
      = Some ("failed to find associated periodic job " +:+ dquote +:+ "unit-tests"
              +:+ dquote).
Proof.
  destruct (@publish_then_handle exampleRuntime examplePjutil example_subscriber
              unit_tests_event "sub" ["*"] example_world)
    as (message & Hmessage & Hout).
  - vm_compute. reflexivity.
  - intros k tag _ _. reflexivity.
  - intros refs [= <-]. vm_compute. reflexivity.
  - exists message. split; [exact Hmessage|].
    cbv zeta in Hout. destruct Hout as [Herr _]. apply Herr. reflexivity.
Defined.

(** ** Counters of other subscriptions *)

Lemma With_Inc_other (subscription label : string) (vec : gmap string nat) :
  label ≠ subscription →
  counter_value (Inc subscription (With subscription vec)) label = counter_value vec label.
Proof.
  intros Hne. unfold Inc, counter_value. rewrite lookup_alter_ne by done.
  apply With_value.
Qed.

Lemma handleWith_MessageCounter `{GoRuntime} `{Pjutil} (s : Subscriber) (jh : jobHandler)
    (msg : Message) (subscription : string) (allowedClusters : list string) (w : World) :
  MessageCounter (w_Metrics (handleWith s jh msg subscription allowedClusters w).2)
  = MessageCounter (w_Metrics w).
Proof.
  rewrite handleWith_run.
  pose proof (handleProwJob_metrics s jh msg subscription allowedClusters w) as Hm.
  destruct (handleProwJob s jh msg subscription allowedClusters w) as [[err|] w'];
    simpl in *; [done|by rewrite Hm].
Qed.

(** X13. A message moves the counters of its own subscription only: for
    every other subscription label the values of the message counter and
    of the error counter are what they were, whatever the message is and
    however its handling ends. *)
Theorem counters_of_other_subscriptions `{GoRuntime} `{Pjutil} (s : Subscriber)
    (msg : Message) (subscription : string) (allowedClusters : list string) (w : World)
    (label : string) :
  label ≠ subscription →
  let w' := (handleMessage s msg subscription allowedClusters w).2 in
  counter_value (MessageCounter (w_Metrics w')) label
    = counter_value (MessageCounter (w_Metrics w)) label
  ∧ counter_value (ErrorCounter (w_Metrics w')) label
    = counter_value (ErrorCounter (w_Metrics w)) label.
Proof.
  intros Hne w'. split.
  - subst w'. rewrite handleMessage_run.
    destruct (msg_Attributes msg !! prowEventType) as [eType|]; simpl;
      [|by apply With_Inc_other].
    repeat case_match; rewrite ?handleWith_MessageCounter; simpl; by apply With_Inc_other.
  - apply (handleMessage_counters s msg subscription allowedClusters w).
Qed.

Lemma counters_of_other_subscriptions_witness :
  let w' := (example_handleMessage example_subscriber nightly_message "sub" ["*"]
               example_world).2 in
  counter_value (MessageCounter (w_Metrics w')) "other"
    = counter_value (MessageCounter (w_Metrics example_world)) "other"
  ∧ counter_value (ErrorCounter (w_Metrics w')) "other"
    = counter_value (ErrorCounter (w_Metrics example_world)) "other".
Proof.
  apply (@counters_of_other_subscriptions exampleRuntime examplePjutil example_subscriber
           nightly_message "sub" ["*"] example_world "other").
  discriminate.
Defined.

(** ** The allow-list, both ways *)

Lemma clusterIsAllowed_iff (allowedClusters : list string) (cluster : string) :
  clusterIsAllowed allowedClusters cluster = true
  ↔ cluster ∈ allowedClusters ∨ "*" ∈ allowedClusters.
Proof.
  split.
  - unfold clusterIsAllowed. intros Hex. apply existsb_exists in Hex as (a & Hin & Ha).
    apply list_elem_of_In in Hin. apply orb_true_iff in Ha as [Ha|Ha];
      apply String.eqb_eq in Ha; subst; auto.
  - intros [Hin|Hin]; [|by apply clusterIsAllowed_wildcard].
    unfold clusterIsAllowed. apply existsb_exists. exists cluster.
    split; [by apply list_elem_of_In|]. by rewrite String.eqb_refl, orb_true_r.
Qed.

(** X14. A resolved spec is handed to the job client exactly when its
    cluster is an entry of [allowedClusters] or [allowedClusters] has the
    wildcard; in particular an empty allow-list refuses every spec, and a
    listed cluster is accepted without the wildcard. *)
Theorem submitted_iff_allowed `{GoRuntime} `{Pjutil} (s : Subscriber) (jh : jobHandler)
    (msg : Message) (subscription : string) (allowedClusters : list string) (w : World)
    (pe : ProwJobEvent) (spec : ProwJobSpec) (labels : option loc) :
  FromPayload zeroEvent (msg_Data msg) = Ok pe →
  getProwJobSpec jh (s_Config s) (s_InRepoConfigCache s) (normalizeName pe)
    = Ok (spec, labels) →
  let out := handleProwJob s jh msg subscription allowedClusters w in
  (created (w_trace out.2) = created (w_trace w) ++ [submitted w pe spec labels]
   ↔ spec_Cluster spec ∈ allowedClusters ∨ "*" ∈ allowedClusters)
  ∧ (created (w_trace out.2) = created (w_trace w)
     ↔ ¬ (spec_Cluster spec ∈ allowedClusters ∨ "*" ∈ allowedClusters))
  ∧ (allowedClusters = [] → out.1 = Some (cluster_not_allowed (spec_Cluster spec))).
Proof.
  intros Hdec Hres out. rewrite <- clusterIsAllowed_iff.
  assert (∀ (l : list ProwJob) x, l ≠ l ++ [x]) as Hgrow.
  { intros l x Heq. apply (f_equal length) in Heq. rewrite length_app in Heq.
    simpl in Heq. lia. }
  destruct (clusterIsAllowed allowedClusters (spec_Cluster spec)) eqn:Hcl.
  - pose proof (created_after_allowed s jh msg subscription allowedClusters w pe spec
                  labels Hdec Hres Hcl) as Hcreated. fold out in Hcreated.
    split; [done|]. split.
    + rewrite Hcreated. split; [intros Heq; symmetry in Heq; by apply Hgrow in Heq|done].
    + intros ->. discriminate.
  - assert (out = (Some (cluster_not_allowed (spec_Cluster spec)),
                   mkWorld (w_Metrics w) (w_heap w)
                     (w_trace w ++ [EvFromPayload (msg_Data msg)]
                        ++ [EvGetProwJobSpec jh (normalizeName pe)]
                        ++ report_calls s
                             (failed (NewProwJob spec None (pe_Annotations pe))
                                     (cluster_not_allowed (spec_Cluster spec))))))
      as Hout by (by apply (handleProwJob_refused _ _ _ _ _ _ _ _ labels)).
    assert (created (w_trace out.2) = created (w_trace w)) as Hcreated.
    { rewrite Hout. cbn [snd w_trace]. rewrite !created_app, created_report_calls. simpl.
      by rewrite app_nil_r. }
    split; [|split].
    + rewrite Hcreated. split; [intros Heq; by apply Hgrow in Heq|done].
    + split; [done|by intros _].
    + intros _. by rewrite Hout.
Qed.

Lemma submitted_iff_allowed_witness :
  created (w_trace (example_handleProwJob example_subscriber presubmitJobHandler
                      unit_tests_message "sub" ["build"; "ci"] example_world).2)
  = [] ++ [submitted (H := exampleRuntime) example_world unit_tests_event
             (PresubmitSpec (Pjutil := examplePjutil) unit_tests unit_tests_refs) None].
Proof.
  apply (@submitted_iff_allowed exampleRuntime examplePjutil example_subscriber
           presubmitJobHandler unit_tests_message "sub" ["build"; "ci"] example_world
           unit_tests_event
           (PresubmitSpec (Pjutil := examplePjutil) unit_tests unit_tests_refs) None).
  - vm_compute. reflexivity.
  - vm_compute. reflexivity.
  - left. simpl. set_solver.
Defined.

(** * Properties of the upstream merge bot *)

(** ** Options *)

Lemma eqb_empty (x : string) : String.eqb x "" = bool_decide (x = "").
Proof. by destruct x. Qed.

(** X15. [validateOptions] accepts the options exactly when the login,
    both repositories and the assignee are given, the git name and the
    git email are given together or not at all, and the two embedded
    option groups validate, the GitHub options in dry-run mode unless the
    run is confirmed. A git name without an email, or an email without a
    name, is refused whatever else is given, once the login is there. *)
Theorem validateOptions_accepts `{automerge.Packages} (o : automerge.options) :
  (automerge.validateOptions o = None
   ↔ automerge.o_githubLogin o ≠ ""
     ∧ (automerge.gitEmail o = "" ↔ automerge.gitName o = "")
     ∧ automerge.downstreamRepo o ≠ ""
     ∧ automerge.upstreamRepo o ≠ ""
     ∧ automerge.assign o ≠ ""
     ∧ automerge.FutureOptions_Validate (automerge.o_FutureOptions o) = None
     ∧ automerge.GitHubOptions_Validate (automerge.o_GitHubOptions o)
         (negb (automerge.Confirm (automerge.o_FutureOptions o))) = None)
  ∧ (automerge.o_githubLogin o ≠ "" →
     ¬ (automerge.gitEmail o = "" ↔ automerge.gitName o = "") →
     automerge.validateOptions o
     = Some "--git-name and --git-email must be specified together").
Proof.
  unfold automerge.validateOptions. rewrite !eqb_empty.
  assert (negb (Bool.eqb (bool_decide (automerge.gitEmail o = ""))
                         (bool_decide (automerge.gitName o = "")))
          = bool_decide (¬ (automerge.gitEmail o = "" ↔ automerge.gitName o = ""))) as ->.
  { destruct (decide (automerge.gitEmail o = "")) as [He|He],
             (decide (automerge.gitName o = "")) as [Hn|Hn];
      rewrite ?(bool_decide_true _ He), ?(bool_decide_false _ He),
              ?(bool_decide_true _ Hn), ?(bool_decide_false _ Hn); simpl;
      symmetry; [apply bool_decide_false | apply bool_decide_true
                | apply bool_decide_true | apply bool_decide_false]; tauto. }
  split.
  - case_bool_decide as Hlogin; [split; [done|tauto]|].
    case_bool_decide as Hpair; [split; [done|tauto]|].
    case_bool_decide as Hdown; [split; [done|tauto]|].
    case_bool_decide as Hup; [split; [done|tauto]|].
    case_bool_decide as Hassign; [split; [done|tauto]|].
    destruct (automerge.FutureOptions_Validate _) as [e|]; [split; [done|]|].
    + intros (_ & _ & _ & _ & _ & Hf & _). discriminate.
    + tauto.
  - intros Hlogin Hpair. rewrite bool_decide_false by done.
    by rewrite bool_decide_true.
Qed.

Lemma validateOptions_accepts_witness :
  automerge.validateOptions (H := examplePackages) nameless_options
  = Some "--git-name and --git-email must be specified together".
Proof.
  apply (@validateOptions_accepts examplePackages nameless_options).
  - discriminate.
  - simpl. intros [_ Hname]. by specialize (Hname eq_refl).
Defined.

(** ** Running a command and committing *)

Ltac run_bot :=
  unfold mbind, automerge.Run_bind, mret, automerge.Run_ret, automerge.act,
    automerge.ask, automerge.hasChanges, automerge.exit, automerge.git; simpl.

(** What [runAndCommitIfNeeded] does, by the answers of the host. *)
Lemma runAndCommitIfNeeded_cases `{automerge.Packages} (h : automerge.Host)
    (author cmd : string) (args : list string) (t : list automerge.Action) :
  let calls := commit_calls author cmd args in
  ∃ committed err n,
    automerge.runAndCommitIfNeeded h author cmd args t
      = (automerge.Done (committed, err), t ++ take n calls)
    ∧ 1 ≤ n ≤ 4
    ∧ (committed = true ↔ n = 4 ∧ automerge.failure h (t ++ calls) = None)
    ∧ (3 ≤ n →
       automerge.failure h (t ++ take 1 calls) = None
       ∧ automerge.failure h (t ++ take 2 calls) = None
       ∧ automerge.changes h (t ++ take 2 calls) = true)
    ∧ (4 ≤ n → automerge.failure h (t ++ take 3 calls) = None)
    ∧ (err = None →
       committed = true
       ∨ (n = 2 ∧ automerge.changes h (t ++ take 2 calls) = false))
    ∧ (committed = true → err = None).
Proof.
  intros calls. subst calls. unfold commit_calls, automerge.runAndCommitIfNeeded. run_bot.
  destruct (automerge.failure h (t ++ [automerge.Call cmd args])) as [e1|] eqn:H1;
    simpl; rewrite <- ?app_assoc; simpl.
  { exists false, (Some ("failed to run " +:+ automerge.fullCommand cmd args +:+ ": " +:+ e1)), 1.
    simpl. split; [done|]. split; [lia|]. split; [split; [done|intros [? _]; lia]|].
    split; [lia|]. split; [lia|]. split; done. }
  destruct (automerge.failure h (t ++ [automerge.Call cmd args; automerge.HasChanges]))
    as [e2|] eqn:H2; simpl; rewrite <- ?app_assoc; simpl.
  { exists false, (Some ("error occurred when checking changes: " +:+ e2)), 2.
    simpl. split; [done|]. split; [lia|]. split; [split; [done|intros [? _]; lia]|].
    split; [lia|]. split; [lia|]. split; done. }
  destruct (automerge.changes h (t ++ [automerge.Call cmd args; automerge.HasChanges]))
    eqn:H3; simpl; rewrite <- ?app_assoc; simpl.
  2:{ exists false, None, 2.
      simpl. split; [done|]. split; [lia|]. split; [split; [done|intros [? _]; lia]|].
      split; [lia|]. split; [lia|]. split; [intros _; by right|done]. }
  destruct (automerge.failure h
              (t ++ [automerge.Call cmd args; automerge.HasChanges;
                     automerge.Call "git" ["add"; "."]])) as [e4|] eqn:H4;
    simpl; rewrite <- ?app_assoc; simpl.
  { exists false, (Some ("failed to 'git add .': " +:+ e4)), 3.
    simpl. split; [done|]. split; [lia|]. split; [split; [done|intros [? _]; lia]|].
    split; [done|]. split; [lia|]. split; done. }
  destruct (automerge.failure h
              (t ++ [automerge.Call cmd args; automerge.HasChanges;
                     automerge.Call "git" ["add"; "."];
                     automerge.Call "git" (automerge.commitArgs author cmd args)]))
    as [e5|] eqn:H5; simpl; rewrite <- ?app_assoc; simpl.
  - eexists false, _, 4.
    simpl. split; [done|]. split; [lia|]. split; [split; [done|intros [_ ?]; congruence]|].
    split; [done|]. split; [done|]. split; done.
  - exists true, None, 4.
    simpl. split; [done|]. split; [lia|]. split; [done|].
    split; [done|]. split; [done|]. split; [intros _; by left|done].
Qed.

(** X16. [runAndCommitIfNeeded] makes its calls in one order: the command,
    the check for changes, [git add .], [git commit] with the full command
    as message and the author. It stops at the first call that fails and
    after the check when nothing changed, so that git is run only after
    the command succeeded and changes were found, and the commit only after
    the add succeeded. It reports a commit exactly when all four calls
    were made and the commit succeeded, and then without an error; without
    an error it has either committed or found nothing to commit. It never
    ends the program. *)
Theorem commit_follows_change `{automerge.Packages} (h : automerge.Host)
    (author cmd : string) (args : list string) (t : list automerge.Action) :
  let run := automerge.Call cmd args in
  let add := automerge.Call "git" ["add"; "."] in
  let commit :=
    automerge.Call "git"
      ["commit"; "-m"; automerge.filepath_Base cmd +:+ " " +:+ String.concat " " args;
       "--author"; author] in
  ∃ committed err made,
    automerge.runAndCommitIfNeeded h author cmd args t
      = (automerge.Done (committed, err), t ++ made)
    ∧ (made = [run] ∨ made = [run; automerge.HasChanges]
       ∨ made = [run; automerge.HasChanges; add]
       ∨ made = [run; automerge.HasChanges; add; commit])
    ∧ (committed = true
       ↔ made = [run; automerge.HasChanges; add; commit]
         ∧ automerge.failure h (t ++ made) = None)
    ∧ (committed = true → err = None)
    ∧ (add ∈ drop 2 made →
       automerge.failure h (t ++ [run]) = None
       ∧ automerge.failure h (t ++ [run; automerge.HasChanges]) = None
       ∧ automerge.changes h (t ++ [run; automerge.HasChanges]) = true)
    ∧ (commit ∈ drop 3 made →
       automerge.failure h (t ++ [run; automerge.HasChanges; add]) = None)
    ∧ (err = None ∧ committed = false →
       made = [run; automerge.HasChanges]
       ∧ automerge.changes h (t ++ made) = false).
Proof.
  intros run add commit.
  destruct (runAndCommitIfNeeded_cases h author cmd args t)
    as (committed & err & n & Hrun & Hn & Hcommitted & Hgit & Hcommit & Hnil & Hclean).
  exists committed, err, (take n (commit_calls author cmd args)).
  split; [exact Hrun|].
  assert (n = 1 ∨ n = 2 ∨ n = 3 ∨ n = 4) as Hcases by lia.
  unfold commit_calls in *. fold run add in Hrun, Hcommitted, Hgit, Hcommit, Hnil |- *.
  change (automerge.Call "git" (automerge.commitArgs author cmd args)) with commit in *.
  destruct Hcases as [-> | [-> | [-> | ->]]]; cbn [take drop] in *.
  - split; [by left|].
    split; [split; [intros Hc; apply Hcommitted in Hc; lia|intros [Heq _]; discriminate Heq]|].
    split; [done|]. split; [by intros ?%elem_of_nil|]. split; [by intros ?%elem_of_nil|].
    intros [Herr Hfalse]. destruct (Hnil Herr) as [?|[? _]]; [congruence|lia].
  - split; [by right; left|].
    split; [split; [intros Hc; apply Hcommitted in Hc; lia|intros [Heq _]; discriminate Heq]|].
    split; [done|]. split; [by intros ?%elem_of_nil|]. split; [by intros ?%elem_of_nil|].
    intros [Herr Hfalse]. destruct (Hnil Herr) as [?|[_ ?]]; [congruence|done].
  - split; [by right; right; left|].
    split; [split; [intros Hc; apply Hcommitted in Hc; lia|intros [Heq _]; discriminate Heq]|].
    split; [done|]. split; [intros _; apply Hgit; lia|].
    split; [by intros ?%elem_of_nil|].
    intros [Herr Hfalse]. destruct (Hnil Herr) as [?|[? _]]; [congruence|lia].
  - split; [by right; right; right|].
    split; [split; [intros Hc; by apply Hcommitted in Hc as [_ ?]
                   |intros [_ ?]; by apply Hcommitted]|].
    split; [done|]. split; [intros _; apply Hgit; lia|].
    split; [intros _; apply Hcommit; lia|].
    intros [Herr Hfalse]. destruct (Hnil Herr) as [?|[? _]]; [congruence|lia].
Qed.

Lemma commit_calls_quiet `{automerge.Packages} (author cmd : string) (args : list string) :
  Forall (λ a, publishes a = false) (commit_calls author cmd args).
Proof. unfold commit_calls. by repeat constructor. Qed.

(** The loop over the steps adds calls that do not publish; it ends the
    program with status 1 only, and the counter it returns has gone up
    only if a commit was made. *)
Lemma runSteps_cases `{automerge.Packages} (h : automerge.Host) (author : string)
    (steps : list (string * list string)) (counter : nat) (t : list automerge.Action) :
  ∃ out added,
    automerge.runSteps h author steps counter t = (out, t ++ added)
    ∧ Forall (λ a, publishes a = false) added
    ∧ match out with
      | automerge.Done counter' =>
          counter ≤ counter'
          ∧ (counter < counter' → ∃ a, a ∈ added ∧ is_commit a = true)
      | automerge.Exit status => status = 1%Z
      end.
Proof.
  revert counter t. induction steps as [|[cmd args] rest IH]; intros counter t; simpl.
  - exists (automerge.Done counter), []. rewrite app_nil_r.
    split; [done|]. split; [constructor|]. split; [done|lia].
  - destruct (runAndCommitIfNeeded_cases h author cmd args t)
      as (committed & err & n & Hrun & Hn & Hcommitted & _ & _ & _ & _).
    unfold mbind at 1, automerge.Run_bind at 1. rewrite Hrun.
    assert (Forall (λ a, publishes a = false) (take n (commit_calls author cmd args)))
      as Hquiet by (apply Forall_take, commit_calls_quiet).
    destruct err as [err|].
    + exists (automerge.Exit 1), (take n (commit_calls author cmd args)). by repeat split.
    + destruct (IH (if committed then S counter else counter)
                  (t ++ take n (commit_calls author cmd args)))
        as (out & added & Hrest & Hquiet' & Hout).
      exists out, (take n (commit_calls author cmd args) ++ added).
      rewrite Hrest, app_assoc. split; [done|]. split; [by apply Forall_app|].
      destruct out as [counter'|status]; [|done].
      destruct Hout as [Hle Hcommit]. destruct committed.
      * split; [lia|]. intros _.
        exists (automerge.Call "git" (automerge.commitArgs author cmd args)).
        split; [|done]. apply elem_of_app. left.
        destruct Hcommitted as [Hfour _]. destruct (Hfour eq_refl) as [-> _].
        unfold commit_calls. simpl. do 3 apply list_elem_of_further. apply list_elem_of_here.
      * split; [lia|]. intros Hlt. destruct (Hcommit Hlt) as (a & Ha & Hc).
        exists a. split; [|done]. apply elem_of_app. by right.
Qed.


Ltac step_bot :=
  cbv beta iota zeta delta [mbind automerge.Run_bind mret automerge.Run_ret automerge.act
                            automerge.ask automerge.exit].

Lemma afterMerge_cases `{automerge.Packages} (steps : list (string * list string))
    (h : automerge.Host) (o : automerge.options) (t : list automerge.Action) :
  ∃ out added,
    automerge.afterMerge steps h o t = (out, t ++ added)
    ∧ ((∃ a, a ∈ added ∧ publishes a = true) → ∃ a, a ∈ added ∧ is_commit a = true)
    ∧ (steps = [] → out = automerge.Exit 0 ∧ added = []).
Proof.
  unfold automerge.afterMerge.
  destruct (runSteps_cases h
              (automerge.gitName o +:+ " <" +:+ automerge.gitEmail o +:+ ">") steps 0 t)
    as (out & added & Hsteps & Hquiet & Hout).
  unfold mbind at 1, automerge.Run_bind at 1. cbv zeta. rewrite Hsteps.
  assert (∀ l : list automerge.Action,
            Forall (λ a, publishes a = false) l → ¬ ∃ a, a ∈ l ∧ publishes a = true)
    as Hnone.
  { intros l Hl (a & Ha & Hp). rewrite Forall_forall in Hl. specialize (Hl a Ha).
    congruence. }
  destruct out as [counter|status].
  - destruct (Nat.eqb_spec counter 0) as [->|Hpos].
    + exists (automerge.Exit 0), added. split; [done|].
      split; [intros Hp; by apply Hnone in Hp|].
      intros ->. simpl in Hsteps. injection Hsteps as Heq.
      split; [done|]. apply (app_inv_head t). by rewrite app_nil_r.
    + destruct Hout as [_ Hcommit]. destruct (Hcommit ltac:(lia)) as (a & Ha & Hc).
      assert (∀ more,
                (∃ a0, a0 ∈ added ++ more ∧ publishes a0 = true)
                → ∃ a0, a0 ∈ added ++ more ∧ is_commit a0 = true) as Hcommitted.
      { intros more _. exists a. split; [|done]. rewrite elem_of_app. by left. }
      assert (steps ≠ []) as Hsome.
      { intros ->. simpl in Hsteps. injection Hsteps as <- _. lia. }
      step_bot.
      match goal with
      | |- context [match automerge.failure h ?l with _ => _ end] =>
          destruct (automerge.failure h l)
      end.
      * rewrite <- !app_assoc. eexists _, (added ++ _). split; [reflexivity|].
        split; [by apply Hcommitted|done].
      * match goal with
        | |- context [match automerge.failure h ?l with _ => _ end] =>
            destruct (automerge.failure h l)
        end.
        -- rewrite <- !app_assoc. eexists _, (added ++ _). split; [reflexivity|].
           split; [by apply Hcommitted|done].
        -- rewrite <- !app_assoc. eexists _, (added ++ _). split; [reflexivity|].
           split; [by apply Hcommitted|done].
  - exists (automerge.Exit status), added. split; [done|].
    split; [intros Hp; by apply Hnone in Hp|].
    intros ->. simpl in Hsteps. discriminate.
Qed.

Ltac fail_or_go h :=
  match goal with
  | |- context [match automerge.failure h ?l with _ => _ end] =>
      let Hf := fresh "Hf" in
      destruct (automerge.failure h l) eqn:Hf
  end.

Lemma mainWith_setup `{automerge.Packages} (steps : list (string * list string))
    (h : automerge.Host) (o : automerge.options) (t : list automerge.Action) :
  let home := automerge.reply h (t ++ take 4 (setup_actions o "" "")) in
  let now := automerge.reply h (t ++ take 8 (setup_actions o home "")) in
  let actions := setup_actions o home now in
  (∃ n, n ≤ 10
        ∧ automerge.mainWith steps h o t = (automerge.Exit 1, t ++ take n actions)
        ∧ (automerge.validateOptions o ≠ None
           ∨ (n ∈ [1; 2; 3; 5; 6; 7; 9; 10]
              ∧ automerge.failure h (t ++ take n actions) ≠ None)))
  ∨ (automerge.validateOptions o = None
     ∧ (∀ n, n ∈ [1; 2; 3; 5; 6; 7; 9; 10] →
          automerge.failure h (t ++ take n actions) = None)
     ∧ automerge.mainWith steps h o t = automerge.afterMerge steps h o (t ++ actions)).
Proof.
  intros home now actions. subst actions now home. unfold setup_actions.
  cbn [take app]. unfold automerge.mainWith.
  destruct (automerge.validateOptions o) as [err|] eqn:Hvalid.
  { left. exists 0. split; [lia|]. cbn [take]. rewrite app_nil_r. split; [done|by left]. }
  cbv beta iota zeta delta [mbind automerge.Run_bind mret automerge.Run_ret automerge.act
                            automerge.ask automerge.exit automerge.git].
  fail_or_go h; cbv beta iota zeta; rewrite <- ?app_assoc; cbn [app];
    [left; exists 1; split; [lia|]; split; [done|right; split; [set_solver|cbn [take]; congruence]]|].
  fail_or_go h; cbv beta iota zeta; rewrite <- ?app_assoc; cbn [app];
    [left; exists 2; split; [lia|]; split; [done|right; split; [set_solver|cbn [take]; congruence]]|].
  fail_or_go h; cbv beta iota zeta; rewrite <- ?app_assoc; cbn [app];
    [left; exists 3; split; [lia|]; split; [done|right; split; [set_solver|cbn [take]; congruence]]|].
  fail_or_go h; cbv beta iota zeta; rewrite <- ?app_assoc; cbn [app];
    [left; exists 5; split; [lia|]; split; [done|right; split; [set_solver|cbn [take]; congruence]]|].
  fail_or_go h; cbv beta iota zeta; rewrite <- ?app_assoc; cbn [app];
    [left; exists 6; split; [lia|]; split; [done|right; split; [set_solver|cbn [take]; congruence]]|].
  fail_or_go h; cbv beta iota zeta; rewrite <- ?app_assoc; cbn [app];
    [left; exists 7; split; [lia|]; split; [done|right; split; [set_solver|cbn [take]; congruence]]|].
  fail_or_go h; cbv beta iota zeta; rewrite <- ?app_assoc; cbn [app];
    [left; exists 9; split; [lia|]; split; [done|right; split; [set_solver|cbn [take]; congruence]]|].
  fail_or_go h; cbv beta iota zeta; rewrite <- ?app_assoc; cbn [app];
    [left; exists 10; split; [lia|]; split; [done|right; split; [set_solver|cbn [take]; congruence]]|].
  right. split; [done|]. split; [|done].
  intros n Hn. repeat (apply elem_of_cons in Hn as [->|Hn]; [done|]).
  by apply elem_of_nil in Hn.
Qed.

Lemma setup_actions_quiet `{automerge.Packages} (o : automerge.options) (home now : string) :
  Forall (λ a, publishes a = false ∧ is_commit a = false) (setup_actions o home now).
Proof. unfold setup_actions. by repeat constructor. Qed.

(** X17. [main] never pushes and never opens a pull request, and it makes
    no commit: its list of steps is empty, so the commit counter is zero
    after the loop and the program exits before the push. Whatever the host
    answers, [main] ends by exiting, with status 0 or 1, and all it has
    run is a prefix of the set-up actions. *)
Theorem main_never_publishes `{automerge.Packages} (h : automerge.Host)
    (o : automerge.options) (t : list automerge.Action) :
  ∃ status added,
    automerge.main h o t = (automerge.Exit status, t ++ added)
    ∧ (status = 0%Z ∨ status = 1%Z)
    ∧ Forall (λ a, publishes a = false ∧ is_commit a = false) added
    ∧ ∃ home now n, added = take n (setup_actions o home now).
Proof.
  unfold automerge.main.
  destruct (mainWith_setup automerge.steps h o t)
    as [(n & Hn & Hrun & _)|(_ & _ & Hrun)].
  - eexists 1%Z, _. split; [exact Hrun|]. split; [by right|].
    split; [apply Forall_take, setup_actions_quiet|]. by eexists _, _, n.
  - destruct (afterMerge_cases automerge.steps h o
                (t ++ setup_actions o
                        (automerge.reply h (t ++ take 4 (setup_actions o "" "")))
                        (automerge.reply h
                           (t ++ take 8
                                   (setup_actions o
                                      (automerge.reply h
                                         (t ++ take 4 (setup_actions o "" ""))) "")))))
      as (out & added & Hafter & _ & Hnone).
    destruct (Hnone eq_refl) as [-> ->]. rewrite app_nil_r in Hafter.
    eexists 0%Z, _. split; [by rewrite Hrun, Hafter|]. split; [by left|].
    split; [apply setup_actions_quiet|]. eexists _, _, 10. reflexivity.
Qed.



(** On a host where every action succeeds and a step leaves changes, the
    program with one step does publish. *)
Example vendor_run_publishes :
  ∃ added,
    automerge.mainWith (H := examplePackages) vendor_steps obliging_host example_options []
      = (automerge.Done (), added)
    ∧ length (filter (λ a, publishes a = true) added) = 2
    ∧ length (filter (λ a, is_commit a = true) added) = 1.
Proof. eexists. split; [vm_compute; reflexivity|]. split; vm_compute; reflexivity. Qed.
